(** * sql-diff: structural comparison of two mysqldump files

    A shallow embedding of [sql_diff.py]: the schema model ([Column],
    [Constraint], [Table]), the dump parser ([MySQLDumpParser]) with the
    regular expressions it relies on, and the structural differ ([SQLDiff]).

    Text is modelled as [string] (a sequence of 8-bit characters).  The
    character classes of Python's [re] and [str] methods are given on the
    ASCII repertoire: a character above 127 is neither white space, nor a
    word character, nor cased.  Ordering of strings is by character code,
    which is the order Python uses for [sorted]. *)

From Stdlib Require Import Ascii.
From stdpp Require Import base gmap sets list strings sorting pretty.

Local Open Scope stdpp_scope.

(** ** Exceptions and fallible computations *)

Inductive exn : Type :=
| FileNotFoundError (msg : string)
| IsADirectoryError (path : string)
| IndexError
| KeyError
| TypeError.

Inductive result (A : Type) : Type :=
| Ok (a : A)
| Raise (e : exn).
Arguments Ok {A} a.
Arguments Raise {A} e.

Global Instance result_ret : MRet result := fun A a => Ok a.
Global Instance result_bind : MBind result := fun A B f m =>
  match m with
  | Ok a => f a
  | Raise e => Raise e
  end.

Global Instance result_fmap : FMap result := fun A B f m =>
  match m with
  | Ok a => Ok (f a)
  | Raise e => Raise e
  end.

(** [l[i]]: indexing a Python list raises [IndexError] out of range. *)
Definition py_index {A} (l : list A) (i : nat) : result A :=
  match l !! i with
  | Some a => Ok a
  | None => Raise IndexError
  end.

(** [d[k]]: looking up a Python dict raises [KeyError] on a missing key. *)
Definition py_getitem `{Countable K} {V} (d : gmap K V) (k : K) : result V :=
  match d !! k with
  | Some v => Ok v
  | None => Raise KeyError
  end.

(** [[f(x) for x in l]] where [f] may raise. *)
Fixpoint for_each {A B} (f : A → result B) (l : list A) : result (list B) :=
  match l with
  | [] => Ok []
  | x :: l' => y ← f x; ys ← for_each f l'; Ok (y :: ys)
  end.

(** ** Python [str] methods *)

Module Str.

Definition nl : string := String (Ascii.ascii_of_nat 10) "".

(** [str.isspace] on ASCII: TAB..CR, FS..US and SPACE. *)
Definition is_space (a : ascii) : bool :=
  let n := Ascii.N_of_ascii a in
  ((9 <=? n)%N && (n <=? 13)%N) || ((28 <=? n)%N && (n <=? 32)%N).

(** [\w] on ASCII: letters, digits and the underscore. *)
Definition is_word (a : ascii) : bool :=
  let n := Ascii.N_of_ascii a in
  ((48 <=? n)%N && (n <=? 57)%N) || ((65 <=? n)%N && (n <=? 90)%N)
  || ((97 <=? n)%N && (n <=? 122)%N) || (n =? 95)%N.

Definition lower_ascii (a : ascii) : ascii :=
  let n := Ascii.N_of_ascii a in
  if ((65 <=? n)%N && (n <=? 90)%N) then Ascii.ascii_of_N (n + 32) else a.

(** [s.lower()] *)
Fixpoint lower (s : string) : string :=
  match s with
  | "" => ""
  | String a s' => String (lower_ascii a) (lower s')
  end.

(** [s.startswith(p)] *)
Fixpoint startswith (p s : string) : bool :=
  match p, s with
  | "", _ => true
  | String a p', String b s' => if decide (a = b) then startswith p' s' else false
  | String _ _, "" => false
  end.

(** [s.startswith((p1, ..., pn))] *)
Definition startswith_any (ps : list string) (s : string) : bool :=
  existsb (fun p => startswith p s) ps.

(** [s.endswith(p)] *)
Definition endswith (p s : string) : bool :=
  startswith (String.rev p) (String.rev s).

(** [sub in s] *)
Fixpoint contains (sub s : string) : bool :=
  startswith sub s ||
  match s with
  | "" => false
  | String _ s' => contains sub s'
  end.

(** [s.split(sep)] for a non-empty [sep]: cut at the non-overlapping
    occurrences of [sep], scanning from the left.  [skip] counts the
    characters of an occurrence still to be passed over, [cur] is the
    piece under construction, reversed. *)
Fixpoint split_go (sep : string) (skip : nat) (cur : string) (s : string)
  : list string :=
  match s with
  | "" => [String.rev cur]
  | String a s' =>
      match skip with
      | S k => split_go sep k cur s'
      | O =>
          if startswith sep s
          then String.rev cur :: split_go sep (String.length sep - 1) "" s'
          else split_go sep 0 (String a cur) s'
      end
  end.
Definition split (sep s : string) : list string := split_go sep 0 "" s.

(** [s.lstrip(chars)], [s.rstrip(chars)], [s.strip(chars)], the set of
    characters given as a predicate. *)
Fixpoint lstrip_by (f : ascii → bool) (s : string) : string :=
  match s with
  | "" => ""
  | String a s' => if f a then lstrip_by f s' else s
  end.
Fixpoint rstrip_by (f : ascii → bool) (s : string) : string :=
  match s with
  | "" => ""
  | String a s' =>
      match rstrip_by f s' with
      | "" => if f a then "" else String a ""
      | r => String a r
      end
  end.
Definition strip_by (f : ascii → bool) (s : string) : string :=
  rstrip_by f (lstrip_by f s).

(** [s.strip()] *)
Definition strip : string → string := strip_by is_space.

Definition in_chars (chars : string) (a : ascii) : bool :=
  bool_decide (a ∈ String.list_ascii_of_string chars).

(** [s.strip(chars)] *)
Definition strip_chars (chars : string) : string → string :=
  strip_by (in_chars chars).

(** [s.split(None, 1)]: leading white space is skipped, the first word
    runs to the next white space, and what follows that run of white
    space is kept whole (trailing white space included) when it is not
    empty. *)
Fixpoint take_word (s : string) : string * string :=
  match s with
  | "" => ("", "")
  | String a s' =>
      if is_space a then ("", s)
      else let '(w, r) := take_word s' in (String a w, r)
  end.
Definition split_ws_1 (s : string) : list string :=
  match lstrip_by is_space s with
  | "" => []
  | t =>
      let '(w, r) := take_word t in
      match lstrip_by is_space r with
      | "" => [w]
      | r' => [w; r']
      end
  end.

(** [sep.join(l)] *)
Definition join (sep : string) (l : list string) : string :=
  String.concat sep l.

End Str.

(** ** Python [re]: a backtracking matcher

    The patterns of the program repeat character classes only, so the
    repetition operators carry a class.  Matching is by continuation:
    [run r s caps k] matches [r] at the front of [s] and hands what is left
    and the groups captured so far to [k]; when [k] fails, the next
    alternative of [r] is tried, in the order Python's engine tries them
    (greedy: longest first; lazy: shortest first; [|]: left first). *)

Module Re.

Inductive cclass : Type :=
| CSpace                        (* \s *)
| CWord                         (* \w *)
| CChar (a : ascii)
| CUnion (c1 c2 : cclass)
| CNeg (c : cclass).

Fixpoint cmatch (c : cclass) (a : ascii) : bool :=
  match c with
  | CSpace => Str.is_space a
  | CWord => Str.is_word a
  | CChar b => bool_decide (a = b)
  | CUnion c1 c2 => cmatch c1 a || cmatch c2 a
  | CNeg c => negb (cmatch c a)
  end.

(** [[\s\S]] *)
Definition CAny : cclass := CUnion CSpace (CNeg CSpace).
(** [[^a]] *)
Definition CNot (a : ascii) : cclass := CNeg (CChar a).

Inductive regex : Type :=
| Lit (p : string)              (* literal text *)
| Star (c : cclass)             (* c*  *)
| Plus (c : cclass)             (* c+  *)
| PlusLazy (c : cclass)         (* c+? *)
| Group (r : regex)             (* ( r ) *)
| Alt (r1 r2 : regex)           (* r1|r2 *)
| Seq (r1 r2 : regex)           (* r1 r2 *)
| AtEol.                        (* (?=\n|$) *)

(** A match: the groups in order, and the text after the match. *)
Record t : Type := Match { groups : list string; rest : string }.

(** [m.group(i)], for [i >= 1] a group of the pattern. *)
Definition group (m : t) (i : nat) : string := nth (i - 1) (groups m) "".

Definition char_eq (ic : bool) (a b : ascii) : bool :=
  if ic then bool_decide (Str.lower_ascii a = Str.lower_ascii b)
  else bool_decide (a = b).

(** The literal [p] at the front of [s]; with [ic] (re.IGNORECASE)
    letters match in either case. *)
Fixpoint lit (ic : bool) (p s : string) : option string :=
  match p, s with
  | "", _ => Some s
  | String a p', String b s' => if char_eq ic a b then lit ic p' s' else None
  | String _ _, "" => None
  end.

(** [(?=\n|$)]: without re.MULTILINE, [$] holds at the end of the text
    and before a final line feed; both are covered by "nothing left, or
    a line feed next". *)
Definition at_eol (s : string) : bool :=
  match s with
  | "" => true
  | String a _ => bool_decide (a = Ascii.ascii_of_nat 10)
  end.

(** The text consumed between [s] and its suffix [s']. *)
Fixpoint take (n : nat) (s : string) : string :=
  match n, s with
  | S n', String a s' => String a (take n' s')
  | _, _ => ""
  end.
Definition consumed (s s' : string) : string :=
  take (String.length s - String.length s') s.

Section run.
Context {A : Type}.

Fixpoint star_greedy (f : ascii → bool) (s : string)
    (k : string → option A) : option A :=
  match s with
  | String a s' =>
      if f a then
        match star_greedy f s' k with
        | Some x => Some x
        | None => k s
        end
      else k s
  | "" => k s
  end.

Fixpoint star_lazy (f : ascii → bool) (s : string)
    (k : string → option A) : option A :=
  match k s with
  | Some x => Some x
  | None =>
      match s with
      | String a s' => if f a then star_lazy f s' k else None
      | "" => None
      end
  end.

Definition plus (lazy : bool) (f : ascii → bool) (s : string)
    (k : string → option A) : option A :=
  match s with
  | String a s' =>
      if f a then (if lazy then star_lazy else star_greedy) f s' k
      else None
  | "" => None
  end.

Fixpoint run (ic : bool) (r : regex) (s : string) (caps : list string)
    (k : string → list string → option A) : option A :=
  match r with
  | Lit p =>
      match lit ic p s with
      | Some s' => k s' caps
      | None => None
      end
  | Star c => star_greedy (cmatch c) s (fun s' => k s' caps)
  | Plus c => plus false (cmatch c) s (fun s' => k s' caps)
  | PlusLazy c => plus true (cmatch c) s (fun s' => k s' caps)
  | Group r1 =>
      run ic r1 s caps (fun s' caps' => k s' (caps' ++ [consumed s s']))
  | Alt r1 r2 =>
      match run ic r1 s caps k with
      | Some x => Some x
      | None => run ic r2 s caps k
      end
  | Seq r1 r2 => run ic r1 s caps (fun s' caps' => run ic r2 s' caps' k)
  | AtEol => if at_eol s then k s caps else None
  end.
End run.

(** [re.match(r, s)] *)
Definition match_ (ic : bool) (r : regex) (s : string) : option t :=
  run ic r s [] (fun s' caps => Some (Match caps s')).

(** [re.search(r, s)]: the first position, from the left, where [r]
    matches. *)
Fixpoint search (ic : bool) (r : regex) (s : string) : option t :=
  match match_ ic r s with
  | Some m => Some m
  | None =>
      match s with
      | String _ s' => search ic r s'
      | "" => None
      end
  end.

(** [re.finditer(r, s)]: the matches found from the left, each search
    resuming where the previous match ended.  [skip] counts the
    characters of the previous match still to be passed over. *)
Fixpoint finditer_go (ic : bool) (r : regex) (skip : nat) (s : string)
  : list t :=
  match s with
  | "" =>
      match skip with
      | O => option_list (match_ ic r s)
      | S _ => []
      end
  | String _ s' =>
      match skip with
      | S k => finditer_go ic r k s'
      | O =>
          match match_ ic r s with
          | Some m =>
              m :: finditer_go ic r
                     (String.length s - String.length (rest m) - 1) s'
          | None => finditer_go ic r 0 s'
          end
      end
  end.
Definition finditer (ic : bool) (r : regex) (s : string) : list t :=
  finditer_go ic r 0 s.

End Re.

Declare Scope re_scope.
Delimit Scope re_scope with re.
Bind Scope re_scope with Re.regex.
Infix "⋅" := Re.Seq (at level 60, right associativity) : re_scope.

(** ** The schema model *)

Module Column.
Record t : Type := mk {
  name : string;
  data_type : string;
  nullable : bool;
  default : option string;
  extra : string
}.
Global Instance eq_dec : EqDecision t.
Proof. solve_decision. Defined.

(** [__eq__], against another [Column] *)
Definition __eq__ (self other : t) : bool :=
  bool_decide (name self = name other)
  && bool_decide (data_type self = data_type other)
  && bool_decide (nullable self = nullable other)
  && bool_decide (default self = default other)
  && bool_decide (extra self = extra other).
End Column.

Module Constraint.
Record t : Type := mk {
  name : string;
  constraint_type : string;   (* PRIMARY KEY, FOREIGN KEY, UNIQUE, INDEX *)
  columns : list string;
  referenced_table : option string;
  referenced_columns : option (list string)
}.
Global Instance eq_dec : EqDecision t.
Proof. solve_decision. Defined.

(** [__eq__], against another [Constraint] *)
Definition __eq__ (self other : t) : bool :=
  bool_decide (name self = name other)
  && bool_decide (constraint_type self = constraint_type other)
  && bool_decide (columns self = columns other)
  && bool_decide (referenced_table self = referenced_table other)
  && bool_decide (referenced_columns self = referenced_columns other).

(** The fields [__hash__] and [__eq__] read, as one tuple.  [__hash__]
    maps an empty [referenced_columns] list to [None]; it stays
    consistent with [__eq__] (equal constraints hash alike), which is all
    a set needs, so a Python set of constraints is a set of these
    tuples. *)
Definition fields (c : t) :=
  (name c, constraint_type c, columns c, referenced_table c,
   referenced_columns c).

Global Instance countable : Countable t.
Proof.
  refine (inj_countable' fields
            (fun '(n, ty, cs, rt, rc) => mk n ty cs rt rc) _).
  by intros [].
Defined.
End Constraint.

Module Table.
Record t : Type := mk {
  name : string;
  columns : gmap string Column.t;
  constraints : list Constraint.t;
  charset : option string;
  collation : option string
}.

(** [__eq__], against another [Table]; [set(l)] is the set of the
    elements of [l], and a dict equals another when both hold the same
    values under the same keys. *)
Definition __eq__ (self other : t) : bool :=
  bool_decide (name self = name other)
  && bool_decide (columns self = columns other)
  && bool_decide (list_to_set (constraints self)
                    =@{gset Constraint.t} list_to_set (constraints other))
  && bool_decide (charset self = charset other)
  && bool_decide (collation self = collation other).
End Table.

(** ** The dump parser: line completeness *)

Definition KEY_PREFIXES : list string := ["PRIMARY KEY"; "UNIQUE KEY"; "KEY"].
Definition CLAUSE_PREFIXES : list string :=
  ["PRIMARY KEY"; "UNIQUE KEY"; "KEY"; "CONSTRAINT"; "FOREIGN KEY"].

(** [MySQLDumpParser._is_line_complete].  Python's [and] evaluates its
    right operand only when the left one holds, so the indexing
    [line.split('REFERENCES')[1]] happens only under the two tests before
    it. *)
Definition _is_line_complete (line : string) : result bool :=
  c1 ← (if Str.startswith "CONSTRAINT" line && Str.contains "REFERENCES" line
        then part ← py_index (Str.split "REFERENCES" line) 1;
             Ok (Str.contains ")" part)
        else Ok false);
  if c1 : bool then Ok true
  else if Str.startswith_any KEY_PREFIXES line && Str.endswith ")" line
  then Ok true
  else if Str.contains "`" line && negb (Str.startswith_any CLAUSE_PREFIXES line)
  then Ok true
  else Ok false.

(** ** The dump parser: patterns *)

Section patterns.
Import Re.
Local Open Scope re_scope.
Local Open Scope char_scope.

Definition backquoted : regex := Lit "`" ⋅ Group (Plus (CNot "`")) ⋅ Lit "`".
Definition column_list : regex := Lit "(" ⋅ Group (Plus (CNot ")")) ⋅ Lit ")".

(** [CREATE TABLE\s+`([^`]+)`\s+\(([\s\S]+?)\)\s*(ENGINE[\s\S]+?);(?=\n|$)] *)
Definition create_table_pattern : regex :=
  Lit "CREATE TABLE" ⋅ Plus CSpace ⋅ backquoted ⋅ Plus CSpace ⋅
  Lit "(" ⋅ Group (PlusLazy CAny) ⋅ Lit ")" ⋅ Star CSpace ⋅
  Group (Lit "ENGINE" ⋅ PlusLazy CAny) ⋅ Lit ";" ⋅ AtEol.

(** [DEFAULT CHARSET=(\w+)] *)
Definition charset_pattern : regex :=
  Lit "DEFAULT CHARSET=" ⋅ Group (Plus CWord).
(** [COLLATE=(\w+)] *)
Definition collation_pattern : regex := Lit "COLLATE=" ⋅ Group (Plus CWord).

(** [`([^`]+)`\s+] *)
Definition column_pattern : regex := backquoted ⋅ Plus CSpace.
(** [(enum|set)\s*\(([^)]+)\)], used with re.IGNORECASE *)
Definition enum_pattern : regex :=
  Group (Alt (Lit "enum") (Lit "set")) ⋅ Star CSpace ⋅ column_list.
(** [DEFAULT\s+([^,\s]+)] *)
Definition default_pattern : regex :=
  Lit "DEFAULT" ⋅ Plus CSpace ⋅ Group (Plus (CNeg (CUnion (CChar ",") CSpace))).

(** [PRIMARY KEY\s+\(([^)]+)\)] *)
Definition pk_pattern : regex := Lit "PRIMARY KEY" ⋅ Plus CSpace ⋅ column_list.
(** [UNIQUE KEY\s+`([^`]+)`\s+\(([^)]+)\)] *)
Definition unique_pattern : regex :=
  Lit "UNIQUE KEY" ⋅ Plus CSpace ⋅ backquoted ⋅ Plus CSpace ⋅ column_list.
(** [CONSTRAINT\s+`([^`]+)`\s+FOREIGN KEY\s+\(([^)]+)\)\s+REFERENCES\s+`([^`]+)`\s+\(([^)]+)\)] *)
Definition fk_pattern : regex :=
  Lit "CONSTRAINT" ⋅ Plus CSpace ⋅ backquoted ⋅ Plus CSpace ⋅
  Lit "FOREIGN KEY" ⋅ Plus CSpace ⋅ column_list ⋅ Plus CSpace ⋅
  Lit "REFERENCES" ⋅ Plus CSpace ⋅ backquoted ⋅ Plus CSpace ⋅ column_list.
(** [KEY\s+`([^`]+)`\s+\(([^)]+)\)] *)
Definition idx_pattern : regex :=
  Lit "KEY" ⋅ Plus CSpace ⋅ backquoted ⋅ Plus CSpace ⋅ column_list.
End patterns.

(** ** The dump parser: clauses *)

(** [[col.strip('` ') for col in text.split(',')]] *)
Definition column_names (text : string) : list string :=
  Str.strip_chars "` " <$> Str.split "," text.

(** [rest_of_line.split(None, 1)], then [parts[0]] and
    [parts[1] if len(parts) > 1 else ""]. *)
Definition type_and_attributes (rest_of_line : string)
  : result (string * string) :=
  let data_type_parts := Str.split_ws_1 rest_of_line in
  data_type ← py_index data_type_parts 0;
  attributes ← (if bool_decide (1 < length data_type_parts)
                then py_index data_type_parts 1 else Ok "");
  Ok (data_type, attributes).

(** The column branch of the loop over [cleaned_lines] (lines 154-192):
    [Some] column when the clause is taken as a column definition, [None]
    when the loop goes on to the key and constraint patterns. *)
Definition parse_column (line : string) : result (option Column.t) :=
  if negb (Str.startswith_any CLAUSE_PREFIXES line) then
    match Re.match_ false column_pattern line with
    | Some column_match =>
        let col_name := Re.group column_match 1 in
        let rest_of_line := Re.rest column_match in
        '(data_type, attributes) ←
          (if Str.startswith_any ["enum"; "set"] (Str.lower rest_of_line) then
             match Re.match_ true enum_pattern rest_of_line with
             | Some enum_match =>
                 Ok (Re.group enum_match 1 +:+ "(" +:+ Re.group enum_match 2
                       +:+ ")",
                     Str.strip (Re.rest enum_match))
             | None => type_and_attributes rest_of_line
             end
           else type_and_attributes rest_of_line);
        let nullable := negb (Str.contains "NOT NULL" attributes) in
        let default :=
          (fun default_match => Re.group default_match 1)
            <$> Re.search false default_pattern attributes in
        let extra :=
          if Str.contains "AUTO_INCREMENT" attributes then "AUTO_INCREMENT"
          else "" in
        Ok (Some (Column.mk col_name data_type nullable default extra))
    | None => Ok None
    end
  else Ok None.

(** The key and constraint branches (lines 195-225), tried in the order
    primary key, unique key, foreign key, index; the first pattern that
    matches wins. *)
Definition parse_constraint (line : string) : option Constraint.t :=
  match Re.match_ false pk_pattern line with
  | Some pk_match =>
      Some (Constraint.mk "PRIMARY" "PRIMARY KEY"
              (column_names (Re.group pk_match 1)) None None)
  | None =>
  match Re.match_ false unique_pattern line with
  | Some unique_match =>
      Some (Constraint.mk (Re.group unique_match 1) "UNIQUE"
              (column_names (Re.group unique_match 2)) None None)
  | None =>
  match Re.match_ false fk_pattern line with
  | Some fk_match =>
      Some (Constraint.mk (Re.group fk_match 1) "FOREIGN KEY"
              (column_names (Re.group fk_match 2))
              (Some (Re.group fk_match 3))
              (Some (column_names (Re.group fk_match 4))))
  | None =>
  match Re.match_ false idx_pattern line with
  | Some idx_match =>
      Some (Constraint.mk (Re.group idx_match 1) "INDEX"
              (column_names (Re.group idx_match 2)) None None)
  | None => None
  end end end end.

(** One turn of the loop over [cleaned_lines], on the state
    [(columns, constraints)]. *)
Definition parse_clause (st : gmap string Column.t * list Constraint.t)
    (line : string) : result (gmap string Column.t * list Constraint.t) :=
  let line := Str.strip line in
  col ← parse_column line;
  match col with
  | Some c => Ok (<[Column.name c := c]> st.1, st.2)
  | None =>
      match parse_constraint line with
      | Some k => Ok (st.1, st.2 ++ [k])
      | None => Ok st
      end
  end.

Fixpoint parse_clauses (st : gmap string Column.t * list Constraint.t)
    (cleaned_lines : list string)
  : result (gmap string Column.t * list Constraint.t) :=
  match cleaned_lines with
  | [] => Ok st
  | line :: lines => st' ← parse_clause st line; parse_clauses st' lines
  end.

(** ** The dump parser: segmenting a table body (lines 124-147) *)

Fixpoint clean_lines (lines : list string) (cleaned_lines : list string)
    (current_line : string) : result (list string) :=
  match lines with
  | [] =>
      Ok (if bool_decide (current_line = "") then cleaned_lines
          else cleaned_lines ++ [current_line])
  | line :: lines' =>
      let line := Str.strip line in
      if bool_decide (line = "") then
        clean_lines lines' cleaned_lines current_line
      else
        let current_line :=
          if bool_decide (current_line = "") then line
          else current_line +:+ ", " +:+ line in
        complete ← _is_line_complete current_line;
        if complete : bool
        then clean_lines lines' (cleaned_lines ++ [current_line]) ""
        else clean_lines lines' cleaned_lines current_line
  end.

Definition segment (table_definition : string) : result (list string) :=
  let lines := Str.strip <$> Str.split ("," +:+ Str.nl) table_definition in
  clean_lines lines [] "".

(** ** The dump parser *)

(** The body of the loop over [table_matches] (lines 104-228). *)
Definition parse_table (m : Re.t) : result Table.t :=
  let table_name := Re.group m 1 in
  let table_definition := Re.group m 2 in
  let table_options := Re.group m 3 in
  let charset :=
    (fun charset_match => Re.group charset_match 1)
      <$> Re.search false charset_pattern table_options in
  let collation :=
    (fun collation_match => Re.group collation_match 1)
      <$> Re.search false collation_pattern table_options in
  cleaned_lines ← segment table_definition;
  '(columns, constraints) ← parse_clauses (∅, []) cleaned_lines;
  Ok (Table.mk table_name columns constraints charset collation).

Fixpoint parse_tables (tables : gmap string Table.t) (table_matches : list Re.t)
  : result (gmap string Table.t) :=
  match table_matches with
  | [] => Ok tables
  | m :: ms =>
      table ← parse_table m;
      parse_tables (<[Table.name table := table]> tables) ms
  end.

(** [parse] once the file has been read into [content]. *)
Definition parse_content (content : string) : result (gmap string Table.t) :=
  parse_tables ∅ (Re.finditer false create_table_pattern content).

(** The file system as the parser sees it: a path names a text file (with
    the text [read] returns for it), a directory, or nothing. *)
Inductive node : Type :=
| File (content : string)
| Directory.

Module MySQLDumpParser.
Record t : Type := mk {
  file_path : string;
  tables : gmap string Table.t
}.

(** [parse]: [os.path.exists], then [open] and [read], then the tables
    are stored in [self.tables]. *)
Definition parse (fs : gmap string node) (self : t) : result t :=
  match fs !! file_path self with
  | None =>
      Raise (FileNotFoundError
               ("Le fichier " +:+ file_path self +:+ " n'existe pas."))
  | Some Directory => Raise (IsADirectoryError (file_path self))
  | Some (File content) =>
      tables' ← parse_tables (tables self)
                   (Re.finditer false create_table_pattern content);
      Ok (mk (file_path self) tables')
  end.

(** [__init__] *)
Definition init (fs : gmap string node) (file_path : string) : result t :=
  parse fs (mk file_path ∅).
End MySQLDumpParser.

(** ** The structural differ *)

(** [sorted(X)] for a set of strings: increasing character codes. *)
Definition sorted (X : gset string) : list string :=
  merge_sort String.le (elements X).

(** The identity key of a constraint in the differ:
    [(c.constraint_type, tuple(c.columns))]. *)
Definition constraint_key (c : Constraint.t) : string * list string :=
  (Constraint.constraint_type c, Constraint.columns c).

(** Python's order on tuples of strings: the first position that differs
    decides, a proper prefix comes first. *)
Fixpoint tuple_le (l1 l2 : list string) : bool :=
  match l1, l2 with
  | [], _ => true
  | _ :: _, [] => false
  | x :: l1', y :: l2' =>
      if bool_decide (x = y) then tuple_le l1' l2' else String.leb x y
  end.
Definition key_leb (k1 k2 : string * list string) : bool :=
  if bool_decide (k1.1 = k2.1) then tuple_le k1.2 k2.2
  else String.leb k1.1 k2.1.
Definition key_le (k1 k2 : string * list string) : Prop := key_leb k1 k2.
Global Instance key_le_dec : RelDecision key_le.
Proof. intros k1 k2. unfold key_le. apply _. Defined.

(** [sorted(X)] for a set of identity keys. *)
Definition sorted_keys (X : gset (string * list string))
  : list (string * list string) :=
  merge_sort key_le (elements X).

(** [f"{x}"] for an [Optional[str]]. *)
Definition fmt (x : option string) : string := default "None" x.

(** [{(c.constraint_type, tuple(c.columns)): c for c in constraints}]:
    a later constraint with the same key replaces an earlier one. *)
Definition constraints_by_key (constraints : list Constraint.t)
  : gmap (string * list string) Constraint.t :=
  foldl (fun d c => <[constraint_key c := c]> d) ∅ constraints.

(** One line of the constraint blocks (lines 337-340 and 348-351);
    [', '.join(None)] raises [TypeError]. *)
Definition constraint_line (sign : string) (c : Constraint.t) : result string :=
  let head :=
    "    " +:+ sign +:+ " " +:+ Constraint.constraint_type c +:+ " "
      +:+ Constraint.name c
      +:+ " (" +:+ Str.join ", " (Constraint.columns c) +:+ ")" in
  if bool_decide (Constraint.constraint_type c = "FOREIGN KEY") then
    match Constraint.referenced_columns c with
    | Some referenced_columns =>
        Ok (head +:+ " REFERENCES " +:+ fmt (Constraint.referenced_table c)
              +:+ " (" +:+ Str.join ", " referenced_columns +:+ ")")
    | None => Raise TypeError
    end
  else Ok head.

Definition missing_constraints (table1 table2 : Table.t)
  : gset (string * list string) :=
  dom (constraints_by_key (Table.constraints table1))
    ∖ dom (constraints_by_key (Table.constraints table2)).
Definition extra_constraints (table1 table2 : Table.t)
  : gset (string * list string) :=
  dom (constraints_by_key (Table.constraints table2))
    ∖ dom (constraints_by_key (Table.constraints table1)).

(** The block of one side of the constraint comparison: a heading, then
    one line per key of [keys], looked up in [constraints]. *)
Definition constraint_block (heading sign : string)
    (constraints : gmap (string * list string) Constraint.t)
    (keys : gset (string * list string)) : result (list string) :=
  if bool_decide (keys ≠ ∅) then
    lines ← for_each (fun key => c ← py_getitem constraints key;
                                  constraint_line sign c)
                     (sorted_keys keys);
    Ok (heading :: lines)
  else Ok [].

(** Lines 331-340. *)
Definition removed_constraints_block (table1 table2 : Table.t)
  : result (list string) :=
  constraint_block "  Contraintes supprimées:" "-"
    (constraints_by_key (Table.constraints table1))
    (missing_constraints table1 table2).
(** Lines 342-351. *)
Definition added_constraints_block (table1 table2 : Table.t)
  : result (list string) :=
  constraint_block "  Contraintes ajoutées:" "+"
    (constraints_by_key (Table.constraints table2))
    (extra_constraints table1 table2).

(** Lines 327-351. *)
Definition compare_constraints (table1 table2 : Table.t)
  : result (list string) :=
  removed ← removed_constraints_block table1 table2;
  added ← added_constraints_block table1 table2;
  Ok (removed ++ added).

Definition fmt_nullable (b : bool) : string := if b then "NULL" else "NOT NULL".

(** Lines 314-325. *)
Definition compare_column (col_name : string) (col1 col2 : Column.t)
  : list string :=
  if bool_decide (col1 ≠ col2) then
    ["  Colonne modifiée: " +:+ col_name]
    ++ (if bool_decide (Column.data_type col1 ≠ Column.data_type col2)
        then ["    Type: " +:+ Column.data_type col1 +:+ " -> "
                +:+ Column.data_type col2]
        else [])
    ++ (if bool_decide (Column.nullable col1 ≠ Column.nullable col2)
        then ["    Nullable: " +:+ fmt_nullable (Column.nullable col1)
                +:+ " -> " +:+ fmt_nullable (Column.nullable col2)]
        else [])
    ++ (if bool_decide (Column.default col1 ≠ Column.default col2)
        then ["    Default: " +:+ fmt (Column.default col1) +:+ " -> "
                +:+ fmt (Column.default col2)]
        else [])
    ++ (if bool_decide (Column.extra col1 ≠ Column.extra col2)
        then ["    Extra: " +:+ Column.extra col1 +:+ " -> "
                +:+ Column.extra col2]
        else [])
  else [].

(** Lines 290-325. *)
Definition compare_columns (table1 table2 : Table.t) : result (list string) :=
  let cols1 := dom (Table.columns table1) in
  let cols2 := dom (Table.columns table2) in
  let missing_cols := cols1 ∖ cols2 in
  let extra_cols := cols2 ∖ cols1 in
  let common_cols := cols1 ∩ cols2 in
  let removed :=
    if bool_decide (missing_cols ≠ ∅)
    then "  Colonnes supprimées:"
           :: ((fun col => "    - " +:+ col) <$> sorted missing_cols)
    else [] in
  added ←
    (if bool_decide (extra_cols ≠ ∅) then
       lines ← for_each (fun col =>
                  c ← py_getitem (Table.columns table2) col;
                  Ok ("    + " +:+ col +:+ " " +:+ Column.data_type c))
                (sorted extra_cols);
       Ok ("  Colonnes ajoutées:" :: lines)
     else Ok []);
  modified ← for_each (fun col_name =>
                col1 ← py_getitem (Table.columns table1) col_name;
                col2 ← py_getitem (Table.columns table2) col_name;
                Ok (compare_column col_name col1 col2))
              (sorted common_cols);
  Ok (removed ++ added ++ concat modified).

(** The per-table comparison, [table_diff] of lines 280-351. *)
Definition compare_table (table1 table2 : Table.t) : result (list string) :=
  let charset_diff :=
    if bool_decide (Table.charset table1 ≠ Table.charset table2)
    then ["  Différence de jeu de caractères: " +:+ fmt (Table.charset table1)
            +:+ " -> " +:+ fmt (Table.charset table2)]
    else [] in
  let collation_diff :=
    if bool_decide (Table.collation table1 ≠ Table.collation table2)
    then ["  Différence de collation: " +:+ fmt (Table.collation table1)
            +:+ " -> " +:+ fmt (Table.collation table2)]
    else [] in
  columns_diff ← compare_columns table1 table2;
  constraints_diff ← compare_constraints table1 table2;
  Ok (charset_diff ++ collation_diff ++ columns_diff ++ constraints_diff).

(** The block of tables found in one file only (lines 259-272). *)
Definition tables_block (heading : string) (tables : gset string)
  : list string :=
  if bool_decide (tables ≠ ∅)
  then heading :: ((fun table => "  - " +:+ table) <$> sorted tables) ++ [""]
  else [].

Definition missing_tables (tables_1 tables_2 : gmap string Table.t)
  : gset string := dom tables_1 ∖ dom tables_2.
Definition extra_tables (tables_1 tables_2 : gmap string Table.t)
  : gset string := dom tables_2 ∖ dom tables_1.

Definition missing_tables_block (tables_1 tables_2 : gmap string Table.t)
  : list string :=
  tables_block
    "Tables présentes dans le premier fichier mais absentes dans le second:"
    (missing_tables tables_1 tables_2).
Definition extra_tables_block (tables_1 tables_2 : gmap string Table.t)
  : list string :=
  tables_block
    "Tables présentes dans le second fichier mais absentes dans le premier:"
    (extra_tables tables_1 tables_2).

(** The block of one common table (lines 277-357). *)
Definition common_table_block (tables_1 tables_2 : gmap string Table.t)
    (table_name : string) : result (list string) :=
  table1 ← py_getitem tables_1 table_name;
  table2 ← py_getitem tables_2 table_name;
  table_diff ← compare_table table1 table2;
  Ok (if bool_decide (table_diff ≠ [])
      then ("Différences pour la table `" +:+ table_name +:+ "`:")
             :: table_diff ++ [""]
      else []).

Definition NO_DIFFERENCE : string := "Aucune différence de structure trouvée.".

(** The lines of the report, [result] at line 359. *)
Definition report_lines (tables_1 tables_2 : gmap string Table.t)
  : result (list string) :=
  let common_tables := dom tables_1 ∩ dom tables_2 in
  blocks ← for_each (common_table_block tables_1 tables_2)
             (sorted common_tables);
  Ok (missing_tables_block tables_1 tables_2
        ++ extra_tables_block tables_1 tables_2 ++ concat blocks).

Module SQLDiff.
Record t : Type := mk {
  parser1 : MySQLDumpParser.t;
  parser2 : MySQLDumpParser.t
}.

(** [__init__] *)
Definition init (fs : gmap string node) (file1 file2 : string) : result t :=
  p1 ← MySQLDumpParser.init fs file1;
  p2 ← MySQLDumpParser.init fs file2;
  Ok (mk p1 p2).

(** [compare] on the two schemas. *)
Definition compare_tables (tables_1 tables_2 : gmap string Table.t)
  : result string :=
  lines ← report_lines tables_1 tables_2;
  Ok (if bool_decide (lines ≠ []) then Str.join Str.nl lines
      else NO_DIFFERENCE).

(** [compare] *)
Definition compare (self : t) : result string :=
  compare_tables (MySQLDumpParser.tables (parser1 self))
                 (MySQLDumpParser.tables (parser2 self)).
End SQLDiff.

(** ** What a match is

    [matches ic r s caps s' caps']: the pattern [r] can consume a prefix of
    [s] leaving [s'], taking the captured groups from [caps] to [caps'].
    This is the declarative reading of the patterns, against which the
    backtracking matcher [Re.run] is shown sound. *)

Fixpoint all_chars (f : ascii → bool) (s : string) : bool :=
  match s with
  | "" => true
  | String a s' => f a && all_chars f s'
  end.

Fixpoint matches (ic : bool) (r : Re.regex) (s : string) (caps : list string)
    (s' : string) (caps' : list string) : Prop :=
  match r with
  | Re.Lit p => Re.lit ic p s = Some s' ∧ caps' = caps
  | Re.Star c =>
      (∃ w, s = w +:+ s' ∧ all_chars (Re.cmatch c) w = true) ∧ caps' = caps
  | Re.Plus c | Re.PlusLazy c =>
      (∃ w, w ≠ "" ∧ s = w +:+ s' ∧ all_chars (Re.cmatch c) w = true)
      ∧ caps' = caps
  | Re.Group r1 =>
      ∃ caps1, matches ic r1 s caps s' caps1
               ∧ caps' = caps1 ++ [Re.consumed s s']
  | Re.Alt r1 r2 =>
      matches ic r1 s caps s' caps' ∨ matches ic r2 s caps s' caps'
  | Re.Seq r1 r2 =>
      ∃ s1 caps1, matches ic r1 s caps s1 caps1
                  ∧ matches ic r2 s1 caps1 s' caps'
  | Re.AtEol => Re.at_eol s = true ∧ s' = s ∧ caps' = caps
  end.

(** The last character of [s] is white space. *)
Fixpoint ends_space (s : string) : bool :=
  match s with
  | "" => false
  | String a "" => Str.is_space a
  | String _ s' => ends_space s'
  end.

(** The invariant of parsed constraints: the referenced table and the
    referenced columns are there exactly for a foreign key. *)
Definition references_iff_foreign_key (c : Constraint.t) : Prop :=
  (is_Some (Constraint.referenced_table c)
     ↔ Constraint.constraint_type c = "FOREIGN KEY")
  ∧ (is_Some (Constraint.referenced_columns c)
     ↔ Constraint.constraint_type c = "FOREIGN KEY").

(** ** The completeness rules as the specification words them

    Second reading of [_is_line_complete], for comparison with the code:
    "the substring after REFERENCES" is what follows the first occurrence
    of that word, to the end of the fragment. *)

Fixpoint after_first (word s : string) : option string :=
  match Re.lit false word s with
  | Some tail => Some tail
  | None =>
      match s with
      | "" => None
      | String _ s' => after_first word s'
      end
  end.

(** The text of [s] before the first occurrence of [word] (all of [s] when
    there is none). *)
Fixpoint before_first (word s : string) : string :=
  if Str.startswith word s then ""
  else match s with
       | "" => ""
       | String a s' => String a (before_first word s')
       end.

(** "A backtick-quoted identifier": a backquote, one character or more
    other than a backquote, a backquote.  [closes_identifier nonempty s]
    reads [s] after an opening backquote, [nonempty] telling whether a
    character has been read since. *)
Fixpoint closes_identifier (nonempty : bool) (s : string) : bool :=
  match s with
  | "" => false
  | String a s' =>
      if bool_decide (a = "`"%char)
      then (if nonempty then true else closes_identifier false s')
      else closes_identifier true s'
  end.

Fixpoint has_backquoted_identifier (s : string) : bool :=
  match s with
  | "" => false
  | String a s' =>
      if bool_decide (a = "`"%char) then closes_identifier false s'
      else has_backquoted_identifier s'
  end.

(** "The key/constraint keywords": those the first two rules name. *)
Definition RULE_KEYWORDS : list string :=
  ["CONSTRAINT"; "PRIMARY KEY"; "UNIQUE KEY"; "KEY"].

(** The three rules: a fragment beginning with CONSTRAINT holds REFERENCES
    and a closing parenthesis after it; a fragment beginning with PRIMARY
    KEY, UNIQUE KEY or KEY ends with a closing parenthesis; any other
    fragment holds a backquoted identifier and begins with none of the
    keywords. *)
Definition line_complete_spec (fragment : string) : bool :=
  (Str.startswith "CONSTRAINT" fragment
   && match after_first "REFERENCES" fragment with
      | Some tail => Str.contains ")" tail
      | None => false
      end)
  || (Str.startswith_any ["PRIMARY KEY"; "UNIQUE KEY"; "KEY"] fragment
      && Str.endswith ")" fragment)
  || (has_backquoted_identifier fragment
      && negb (Str.startswith_any RULE_KEYWORDS fragment)).

(** ** Sample inputs *)

Definition lines (ls : list string) : string := Str.join Str.nl ls.

Definition fk_users (name : string) : Constraint.t :=
  Constraint.mk name "FOREIGN KEY" ["user_id"] (Some "users") (Some ["id"]).

Definition user_id_column : Column.t :=
  Column.mk "user_id" "int(11)" false None "".

Definition orders_table (fk_name : string) : Table.t :=
  Table.mk "orders" {[ "user_id" := user_id_column ]} [fk_users fk_name]
    (Some "utf8mb4") None.

(** A dump whose table [orders] holds one foreign key, named [fk_name]. *)
Definition orders_dump (fk_name : string) : string :=
  lines [
    "CREATE TABLE `orders` (";
    "  `user_id` int(11) NOT NULL,";
    "  CONSTRAINT `" +:+ fk_name
      +:+ "` FOREIGN KEY (`user_id`) REFERENCES `users` (`id`)";
    ") ENGINE=InnoDB DEFAULT CHARSET=utf8mb4;";
    ""
  ].

Definition id_clause : string := "`id` int(11) NOT NULL AUTO_INCREMENT".
Definition id_column : Column.t :=
  Column.mk "id" "int(11)" false None "AUTO_INCREMENT".

Definition status_clause : string :=
  "`status` enum('a','b','c') NOT NULL DEFAULT 'a'".
Definition status_column : Column.t :=
  Column.mk "status" "enum('a','b','c')" false (Some "'a'") "".

(** A dump of one table [t] with the single clause [clause]. *)
Definition one_clause_dump (clause : string) : string :=
  lines [
    "CREATE TABLE `t` (";
    "  " +:+ clause;
    ") ENGINE=InnoDB;";
    ""
  ].

(** A foreign key whose referenced table has REFERENCES in its name. *)
Definition fk_references_clause : string :=
  "CONSTRAINT `fk_a` FOREIGN KEY (`a`) REFERENCES `REFERENCES_T` (`id`)".

Definition two_fk_dump : string :=
  lines [
    "CREATE TABLE `t` (";
    "  `a` int(11) NOT NULL,";
    "  `b` int(11) NOT NULL,";
    "  " +:+ fk_references_clause +:+ ",";
    "  CONSTRAINT `fk_b` FOREIGN KEY (`b`) REFERENCES `u` (`id`)";
    ") ENGINE=InnoDB;";
    ""
  ].

(** A statement without ENGINE, followed by one with it. *)
Definition no_engine_dump : string :=
  lines [
    "CREATE TABLE `a` (";
    "  `id` int(11) NOT NULL";
    ") DEFAULT CHARSET=utf8;";
    "CREATE TABLE `b` (";
    "  `x` int(11) NOT NULL";
    ") ENGINE=InnoDB;";
    ""
  ].

(** The second statement of [no_engine_dump], alone. *)
Definition engine_statement : string :=
  lines [
    "CREATE TABLE `b` (";
    "  `x` int(11) NOT NULL";
    ") ENGINE=InnoDB;";
    ""
  ].

(** A statement without ENGINE, alone. *)
Definition no_engine_alone : string :=
  lines [
    "CREATE TABLE `a` (";
    "  `id` int(11) NOT NULL";
    ") DEFAULT CHARSET=utf8;";
    ""
  ].

(** ** What parsed schemas keep *)

(** What a parsed schema keeps: a table is filed under its name, a column
    under its name; names are not empty and hold no backquote; a column
    has a type, and its extra is empty or AUTO_INCREMENT. *)
Definition well_formed_name (name : string) : Prop :=
  name ≠ "" ∧ Str.contains "`" name = false.

Definition well_formed_column (key : string) (c : Column.t) : Prop :=
  Column.name c = key ∧ well_formed_name key ∧ Column.data_type c ≠ ""
  ∧ (Column.extra c = "" ∨ Column.extra c = "AUTO_INCREMENT")
  ∧ Column.default c ≠ Some "".

(** What a parsed constraint keeps: one of the four kinds, at least one
    column, and the name PRIMARY for a primary key. *)
Definition well_formed_constraint (c : Constraint.t) : Prop :=
  Constraint.constraint_type c
    ∈ ["PRIMARY KEY"; "UNIQUE"; "FOREIGN KEY"; "INDEX"]
  ∧ Constraint.columns c ≠ []
  ∧ (Constraint.constraint_type c = "PRIMARY KEY"
     → Constraint.name c = "PRIMARY").

(** Two tables between which the differ has nothing to report. *)
Definition same_structure (table1 table2 : Table.t) : Prop :=
  Table.charset table1 = Table.charset table2
  ∧ Table.collation table1 = Table.collation table2
  ∧ Table.columns table1 = Table.columns table2
  ∧ dom (constraints_by_key (Table.constraints table1))
    = dom (constraints_by_key (Table.constraints table2)).

(** The result of a computation that did not raise. *)
Definition returned {A} (m : result A) : option A :=
  match m with
  | Ok a => Some a
  | Raise _ => None
  end.

(** ** What the report shows of the constraints *)

(** A table without its constraints. *)
Definition without_constraints (table : Table.t) : Table.t :=
  Table.mk (Table.name table) (Table.columns table) []
    (Table.charset table) (Table.collation table).

(** The line the report shows for a constraint, and the section of the
    constraints [cs] under a heading. *)
Definition constraint_text (sign : string) (c : Constraint.t) : string :=
  ("    " +:+ sign +:+ " " +:+ Constraint.constraint_type c +:+ " "
     +:+ Constraint.name c
     +:+ " (" +:+ Str.join ", " (Constraint.columns c) +:+ ")")
  +:+ (if bool_decide (Constraint.constraint_type c = "FOREIGN KEY")
       then " REFERENCES " +:+ default "None" (Constraint.referenced_table c)
              +:+ " ("
              +:+ Str.join ", " (default [] (Constraint.referenced_columns c))
              +:+ ")"
       else "").

Definition constraint_section (heading sign : string)
    (cs : list Constraint.t) : list string :=
  if bool_decide (cs ≠ []) then heading :: (constraint_text sign <$> cs)
  else [].

(** Two versions of the table [orders]: the foreign key on (user_id) is
    named fk_1 in the first and fk_2 in the second, the index on (a) is in
    the first only, the unique key on (b) in the second only. *)
Definition orders_before : Table.t :=
  Table.mk "orders" {[ "user_id" := user_id_column ]}
    [fk_users "fk_1"; Constraint.mk "idx_a" "INDEX" ["a"] None None]
    (Some "utf8mb4") None.
Definition orders_after : Table.t :=
  Table.mk "orders" {[ "user_id" := user_id_column ]}
    [fk_users "fk_2"; Constraint.mk "u_b" "UNIQUE" ["b"] None None]
    (Some "utf8mb4") None.
Definition orders_report : string :=
  lines [
    "Différences pour la table `orders`:";
    "  Contraintes supprimées:";
    "    - INDEX idx_a (a)";
    "  Contraintes ajoutées:";
    "    + UNIQUE u_b (b)";
    ""
  ].

(** ** sql_dump_extractor.py *)

Module Extractor.

Section patterns.
Import Re.
Local Open Scope re_scope.

(** [INSERT INTO `([^`]+)`] *)
Definition insert_pattern : regex := Lit "INSERT INTO " ⋅ backquoted.
(** [CREATE TABLE `([^`]+)`] *)
Definition create_table_pattern : regex := Lit "CREATE TABLE " ⋅ backquoted.
End patterns.

(** [f.readlines()], and the iteration [for line in f]: the text cut after
    each line feed, the line feeds kept. *)
Fixpoint readlines (content : string) : list string :=
  match content with
  | "" => []
  | String a s' =>
      if bool_decide (a = Ascii.ascii_of_nat 10) then String a "" :: readlines s'
      else match readlines s' with
           | [] => [String a ""]
           | line :: lines => String a line :: lines
           end
  end.

(** [f.writelines(lines)]: the lines one after the other. *)
Definition writelines (lines : list string) : string := String.concat "" lines.

(** [create_table_pattern.search(line)] and [match.group(1)]. *)
Definition created_table (line : string) : option string :=
  (fun m => Re.group m 1) <$> Re.search false create_table_pattern line.

(** [insert_pattern.search(line)] and [match.group(1)]. *)
Definition inserted_table (line : string) : option string :=
  (fun m => Re.group m 1) <$> Re.search false insert_pattern line.

(** The loop of [list_tables] (lines 24-27 and 30-33): the table of each
    line that has one, in the order of the lines. *)
Fixpoint list_tables_lines (lines : list string) : list string :=
  match lines with
  | [] => []
  | line :: lines' =>
      match created_table line with
      | Some table => table :: list_tables_lines lines'
      | None => list_tables_lines lines'
      end
  end.

(** [match and match.group(1) in table_names], for the INSERT test of line
    82. *)
Definition is_target_insert (table_names : list string) (line : string) : bool :=
  match inserted_table line with
  | Some table => bool_decide (table ∈ table_names)
  | None => false
  end.

(** The loop of [remove_tables_data] (lines 79-92) on the state
    [(output_lines, tables_found)]: a line that is an INSERT for a target
    table is passed over ([continue], so its CREATE TABLE is not looked
    at); any other line is kept, and a target table it creates is noted. *)
Fixpoint remove_tables_data_lines (table_names : list string)
    (lines : list string) (output_lines : list string)
    (tables_found : gset string) : list string * gset string :=
  match lines with
  | [] => (output_lines, tables_found)
  | line :: lines' =>
      if is_target_insert table_names line then
        remove_tables_data_lines table_names lines' output_lines tables_found
      else
        let output_lines := output_lines ++ [line] in
        let tables_found :=
          match created_table line with
          | Some table =>
              if bool_decide (table ∈ table_names)
              then {[ table ]} ∪ tables_found else tables_found
          | None => tables_found
          end in
        remove_tables_data_lines table_names lines' output_lines tables_found
  end.

(** [set(table_names) - tables_found] (line 104). *)
Definition tables_not_found (table_names : list string)
    (tables_found : gset string) : gset string :=
  list_to_set table_names ∖ tables_found.

(** [s.rsplit('.', 1)[0]]: the text before the last dot, all of [s] when
    it has no dot. *)
Fixpoint before_last_dot (s : string) : option string :=
  match s with
  | "" => None
  | String a s' =>
      match before_last_dot s' with
      | Some h => Some (String a h)
      | None => if bool_decide (a = "."%char) then Some "" else None
      end
  end.
Definition rsplit_dot_head (s : string) : string :=
  default s (before_last_dot s).

(** The command line as [argparse] hands it to [main]: an absent option
    is [None]; [-t] given at least once is the list of its values. *)
Record args : Type := Args {
  dump_file : option string;
  tables : option (list string);
  list_ : bool;                     (* args.list *)
  output : option string
}.

(** Truth of an optional string, and of an optional list. *)
Definition truthy (x : option string) : bool :=
  match x with
  | Some s => bool_decide (s ≠ "")
  | None => false
  end.
Definition truthy_list (x : option (list string)) : bool :=
  match x with
  | Some l => bool_decide (l ≠ [])
  | None => false
  end.

(** Line 147.  The second form is used for more than three tables only, so
    [tables[0]] is there. *)
Definition table_suffix (tables : list string) : string :=
  if bool_decide (length tables ≤ 3) then Str.join "_" tables
  else match tables with
       | t0 :: _ => t0 +:+ "_and_" +:+ pretty (length tables - 1) +:+ "_others"
       | [] => ""
       end.

(** Line 148. *)
Definition default_output (dump_file : string) (tables : list string) : string :=
  rsplit_dot_head dump_file +:+ "_" +:+ table_suffix tables +:+ "_no_data.sql".

Inductive input : Type :=
| Stdin
| InputFile (path : string).

(** What [main] goes on to do. *)
Inductive action : Type :=
| ListTables (i : input)
| RemoveTablesData (i : input) (table_names : list string)
    (output_stream : option string) (is_file_output : bool)
| Usage.

(** [main], lines 134-158, after [parse_args]. *)
Definition main (a : args) : action :=
  let input_stream :=
    match dump_file a with
    | Some f => if bool_decide (f = "") || bool_decide (f = "-") then Stdin
                else InputFile f
    | None => Stdin
    end in
  let is_file_input :=
    match input_stream with InputFile _ => true | Stdin => false end in
  let '(output_stream, is_file_output) :=
    if negb (truthy (output a)) && is_file_input && truthy_list (tables a)
       && negb (list_ a)
    then (Some (default_output (default "" (dump_file a))
                  (default [] (tables a))), true)
    else (output a, truthy (output a)) in
  if list_ a then ListTables input_stream
  else if truthy_list (tables a) then
    RemoveTablesData input_stream (default [] (tables a)) output_stream
      is_file_output
  else Usage.

(** Where [remove_tables_data] writes (lines 95-101): the file
    [output_stream], or the standard output ([None]). *)
Definition destination (output_stream : option string) (is_file_output : bool)
  : option string :=
  if is_file_output && truthy output_stream then output_stream else None.

End Extractor.

(** * Properties *)

(** ** Strings *)

Lemma string_app_nil_r (s : string) : s +:+ "" = s.
Proof. induction s as [|a s IH]; [done|]. unfold String.app in *. simpl. by f_equal. Qed.

Lemma string_app_assoc (s1 s2 s3 : string) : (s1 +:+ s2) +:+ s3 = s1 +:+ (s2 +:+ s3).
Proof.
  induction s1 as [|a s1 IH]; [done|]. unfold String.app in *. simpl. by f_equal.
Qed.

Lemma string_app_cons (a : ascii) (s1 s2 : string) :
  String a s1 +:+ s2 = String a (s1 +:+ s2).
Proof. done. Qed.

Lemma string_app_nil_l (s : string) : "" +:+ s = s.
Proof. done. Qed.

Lemma string_length_app (s1 s2 : string) :
  String.length (s1 +:+ s2) = String.length s1 + String.length s2.
Proof.
  induction s1 as [|a s1 IH]; [done|]. rewrite string_app_cons. simpl. by rewrite IH.
Qed.

Lemma string_take_app (w s : string) : Re.take (String.length w) (w +:+ s) = w.
Proof.
  induction w as [|a w IH]; simpl.
  - by destruct s.
  - by rewrite IH.
Qed.

Lemma consumed_app (w s : string) : Re.consumed (w +:+ s) s = w.
Proof.
  unfold Re.consumed. rewrite string_length_app.
  replace (String.length w + String.length s - String.length s)
    with (String.length w) by lia.
  apply string_take_app.
Qed.

Lemma lit_exact (p s s' : string) : Re.lit false p s = Some s' ↔ s = p +:+ s'.
Proof.
  revert s. induction p as [|a p IH]; intros s; simpl.
  - rewrite string_app_nil_l. split; [by intros [= ->]|by intros ->].
  - destruct s as [|b s]; [by rewrite string_app_cons|].
    rewrite string_app_cons. unfold Re.char_eq. case_bool_decide as Hab.
    + subst b. rewrite IH. split; [by intros ->|]. by intros [= ->].
    + split; [done|]. intros [= ? ?]. done.
Qed.

Lemma lit_suffix (ic : bool) (p s s' : string) :
  Re.lit ic p s = Some s' → ∃ w, s = w +:+ s'.
Proof.
  revert s. induction p as [|a p IH]; intros s; simpl.
  - intros [= ->]. by exists "".
  - destruct s as [|b s]; [done|].
    destruct (Re.char_eq ic a b); [|done].
    intros (w & ->)%IH. by exists (String b w).
Qed.

Lemma startswith_app (p s : string) : Str.startswith p (p +:+ s) = true.
Proof.
  induction p as [|a p IH]; [done|]. rewrite string_app_cons. simpl.
  by rewrite decide_True.
Qed.

Lemma contains_app (sub w s : string) : Str.contains sub (w +:+ sub +:+ s) = true.
Proof.
  induction w as [|a w IH].
  - rewrite string_app_nil_l.
    destruct (sub +:+ s) eqn:E; simpl; rewrite <- E, startswith_app; done.
  - rewrite string_app_cons. simpl. rewrite IH. apply orb_true_r.
Qed.

Lemma contains_app_r (sub w s : string) :
  Str.contains sub s = true → Str.contains sub (w +:+ s) = true.
Proof.
  intros H. induction w as [|a w IH]; [done|].
  rewrite string_app_cons. simpl. rewrite IH. apply orb_true_r.
Qed.

Lemma all_chars_lstrip (f : ascii → bool) (s : string) :
  Str.lstrip_by f s = "" → all_chars f s = true.
Proof.
  induction s as [|a s IH]; simpl; [done|].
  destruct (f a); [done|]. discriminate.
Qed.

Lemma ends_space_all (s : string) :
  s ≠ "" → all_chars Str.is_space s = true → ends_space s = true.
Proof.
  induction s as [|a s IH]; [done|]. intros _ [Ha Hs]%andb_true_iff.
  destruct s as [|b s]; [done|]. change (ends_space (String b s) = true).
  by apply IH.
Qed.

Lemma ends_space_app (w s : string) :
  s ≠ "" → ends_space (w +:+ s) = ends_space s.
Proof.
  intros Hs. induction w as [|a w IH]; [done|].
  rewrite string_app_cons. destruct (w +:+ s) as [|b t] eqn:E.
  - destruct w, s; done.
  - simpl in *. done.
Qed.

Lemma ends_space_rstrip (s : string) :
  ends_space (Str.rstrip_by Str.is_space s) = false.
Proof.
  induction s as [|a s IH]; [done|]. simpl.
  destruct (Str.rstrip_by Str.is_space s) as [|b r] eqn:E.
  - destruct (Str.is_space a) eqn:Ea; simpl; [done|]. done.
  - done.
Qed.

Lemma ends_space_strip (s : string) : ends_space (Str.strip s) = false.
Proof. apply ends_space_rstrip. Qed.

(** [split] on a separator that occurs yields at least two pieces, so
    indexing the second one is safe. *)
Lemma split_go_nonempty (sep : string) (skip : nat) (cur s : string) :
  ∃ x l, Str.split_go sep skip cur s = x :: l.
Proof.
  revert skip cur. induction s as [|a s IH]; intros skip cur; simpl; [eauto|].
  destruct skip as [|k]; [|apply IH].
  destruct (Str.startswith sep (String a s)); [eauto|apply IH].
Qed.

Lemma split_go_contains (sep : string) (cur s : string) :
  sep ≠ "" → Str.contains sep s = true →
  ∃ x y l, Str.split_go sep 0 cur s = x :: y :: l.
Proof.
  intros Hsep. revert cur. induction s as [|a s IH]; intros cur.
  - simpl. destruct sep; [done|]. simpl. done.
  - intros Hc.
    change (Str.contains sep (String a s))
      with (Str.startswith sep (String a s) || Str.contains sep s) in Hc.
    change (Str.split_go sep 0 cur (String a s))
      with (if Str.startswith sep (String a s)
            then String.rev cur
                   :: Str.split_go sep (String.length sep - 1) "" s
            else Str.split_go sep 0 (String a cur) s).
    destruct (Str.startswith sep (String a s)).
    + destruct (split_go_nonempty sep (String.length sep - 1) "" s)
        as (y & l & ->). eauto.
    + simpl in Hc. by apply IH.
Qed.

(** [split]: the second piece is the text between the first two
    occurrences of the separator. *)
Lemma startswith_lit (p s : string) :
  Str.startswith p s
  = match Re.lit false p s with Some _ => true | None => false end.
Proof.
  revert s. induction p as [|a p IH]; intros s; simpl; [done|].
  destruct s as [|b s]; [done|]. unfold Re.char_eq.
  destruct (decide (a = b)) as [->|Hne].
  - by rewrite bool_decide_true.
  - by rewrite bool_decide_false.
Qed.

Lemma contains_after_first (word s : string) :
  Str.contains word s
  = match after_first word s with Some _ => true | None => false end.
Proof.
  induction s as [|a s IH].
  - simpl. rewrite startswith_lit. by destruct (Re.lit false word "").
  - change (Str.contains word (String a s))
      with (Str.startswith word (String a s) || Str.contains word s).
    change (after_first word (String a s))
      with (match Re.lit false word (String a s) with
            | Some tail => Some tail
            | None => after_first word s
            end).
    rewrite startswith_lit, IH.
    by destruct (Re.lit false word (String a s)).
Qed.

Lemma before_first_none (word s : string) :
  Str.contains word s = false → before_first word s = s.
Proof.
  induction s as [|a s IH].
  - simpl. by destruct (Str.startswith word "").
  - change (Str.contains word (String a s))
      with (Str.startswith word (String a s) || Str.contains word s).
    intros [H1 H2]%orb_false_iff.
    change (before_first word (String a s))
      with (if Str.startswith word (String a s) then ""
            else String a (before_first word s)).
    by rewrite H1, IH.
Qed.

Lemma split_go_skip (sep p cur t : string) :
  Str.split_go sep (String.length p) cur (p +:+ t) = Str.split_go sep 0 cur t.
Proof. induction p as [|a p IH]; [done|]. rewrite string_app_cons. simpl. apply IH. Qed.

Lemma split_go_head (sep cur s : string) :
  ∃ l, Str.split_go sep 0 cur s
       = String.rev_app cur (before_first sep s) :: l.
Proof.
  revert cur. induction s as [|a s IH]; intros cur.
  - simpl. destruct (Str.startswith sep ""); eauto.
  - change (Str.split_go sep 0 cur (String a s))
      with (if Str.startswith sep (String a s)
            then String.rev cur
                   :: Str.split_go sep (String.length sep - 1) "" s
            else Str.split_go sep 0 (String a cur) s).
    change (before_first sep (String a s))
      with (if Str.startswith sep (String a s) then ""
            else String a (before_first sep s)).
    destruct (Str.startswith sep (String a s)); [eauto|].
    destruct (IH (String a cur)) as (l & ->). eauto.
Qed.

Lemma split_second (sep cur s tail : string) :
  sep ≠ "" → after_first sep s = Some tail →
  ∃ x l, Str.split_go sep 0 cur s = x :: before_first sep tail :: l.
Proof.
  intros Hsep. revert cur. induction s as [|a s IH]; intros cur.
  - simpl. destruct sep; [done|]. simpl. done.
  - change (after_first sep (String a s))
      with (match Re.lit false sep (String a s) with
            | Some tail => Some tail
            | None => after_first sep s
            end).
    change (Str.split_go sep 0 cur (String a s))
      with (if Str.startswith sep (String a s)
            then String.rev cur
                   :: Str.split_go sep (String.length sep - 1) "" s
            else Str.split_go sep 0 (String a cur) s).
    rewrite startswith_lit.
    destruct (Re.lit false sep (String a s)) as [tail'|] eqn:E.
    + intros [= ->].
      apply lit_exact in E. destruct sep as [|b sep']; [done|].
      rewrite string_app_cons in E. injection E as <- ->.
      simpl. rewrite Nat.sub_0_r, split_go_skip.
      destruct (split_go_head (String a sep') "" tail) as (l & ->).
      simpl. eauto.
    + apply IH.
Qed.

(** ** The matcher is sound for [matches] *)

Lemma star_greedy_sound {A} (f : ascii → bool) (s : string)
    (k : string → option A) (x : A) :
  Re.star_greedy f s k = Some x →
  ∃ w s', s = w +:+ s' ∧ all_chars f w = true ∧ k s' = Some x.
Proof.
  revert x. induction s as [|a s IH]; intros x; simpl.
  - intros H. by exists "", "".
  - destruct (f a) eqn:Ha.
    + destruct (Re.star_greedy f s k) as [y|] eqn:E.
      * intros [= <-]. destruct (IH y eq_refl) as (w & s' & -> & Hw & Hk).
        exists (String a w), s'. simpl. by rewrite Ha, Hw.
      * intros H. by exists "", (String a s).
    + intros H. by exists "", (String a s).
Qed.

Lemma star_lazy_sound {A} (f : ascii → bool) (s : string)
    (k : string → option A) (x : A) :
  Re.star_lazy f s k = Some x →
  ∃ w s', s = w +:+ s' ∧ all_chars f w = true ∧ k s' = Some x.
Proof.
  revert x. induction s as [|a s IH]; intros x; simpl.
  - destruct (k "") eqn:E; [|done]. intros [= <-]. by exists "", "".
  - destruct (k (String a s)) eqn:E.
    + intros [= <-]. by exists "", (String a s).
    + destruct (f a) eqn:Ha; [|done]. intros H.
      destruct (IH x H) as (w & s' & -> & Hw & Hk).
      exists (String a w), s'. simpl. by rewrite Ha, Hw.
Qed.

Lemma plus_sound {A} (lazy : bool) (f : ascii → bool) (s : string)
    (k : string → option A) (x : A) :
  Re.plus lazy f s k = Some x →
  ∃ w s', w ≠ "" ∧ s = w +:+ s' ∧ all_chars f w = true ∧ k s' = Some x.
Proof.
  unfold Re.plus. destruct s as [|a s]; [done|].
  destruct (f a) eqn:Ha; [|done]. intros H.
  assert (∃ w s', s = w +:+ s' ∧ all_chars f w = true ∧ k s' = Some x)
    as (w & s' & -> & Hw & Hk).
  { destruct lazy; [by apply star_lazy_sound|by apply star_greedy_sound]. }
  exists (String a w), s'. simpl. by rewrite Ha, Hw.
Qed.

Lemma run_sound {A} (ic : bool) (r : Re.regex) (s : string)
    (caps : list string) (k : string → list string → option A) (x : A) :
  Re.run ic r s caps k = Some x →
  ∃ s' caps', matches ic r s caps s' caps' ∧ k s' caps' = Some x.
Proof.
  revert s caps k x.
  induction r as [p|c|c|c|r1 IH1|r1 IH1 r2 IH2|r1 IH1 r2 IH2|];
    intros s caps k x; simpl.
  - destruct (Re.lit ic p s) as [s'|] eqn:E; [|done]. intros H.
    by exists s', caps.
  - intros (w & s' & -> & Hw & Hk)%star_greedy_sound.
    exists s', caps. eauto.
  - intros (w & s' & ? & -> & Hw & Hk)%plus_sound. exists s', caps.
    split; [|done]. split; [|done]. by exists w.
  - intros (w & s' & ? & -> & Hw & Hk)%plus_sound. exists s', caps.
    split; [|done]. split; [|done]. by exists w.
  - intros (s' & caps1 & Hm & Hk)%IH1. exists s', (caps1 ++ [Re.consumed s s']).
    eauto.
  - destruct (Re.run ic r1 s caps k) as [y|] eqn:E.
    + intros [= <-]. apply IH1 in E as (s' & caps' & ? & ?).
      exists s', caps'. eauto.
    + intros (s' & caps' & ? & ?)%IH2. exists s', caps'. eauto.
  - intros (s1 & caps1 & Hm1 & (s' & caps' & Hm2 & Hk)%IH2)%IH1.
    exists s', caps'. eauto.
  - destruct (Re.at_eol s) eqn:E; [|done]. intros H. by exists s, caps.
Qed.

Lemma matches_suffix (ic : bool) (r : Re.regex) (s : string)
    (caps : list string) (s' : string) (caps' : list string) :
  matches ic r s caps s' caps' → ∃ w, s = w +:+ s'.
Proof.
  revert s caps s' caps'.
  induction r as [p|c|c|c|r1 IH1|r1 IH1 r2 IH2|r1 IH1 r2 IH2|];
    intros s caps s' caps'; simpl.
  - intros [H _]. by eapply lit_suffix.
  - intros [(w & -> & _) _]. by exists w.
  - intros [(w & _ & -> & _) _]. by exists w.
  - intros [(w & _ & -> & _) _]. by exists w.
  - intros (caps1 & H & _). by eapply IH1.
  - intros [H|H]; [by eapply IH1|by eapply IH2].
  - intros (s1 & caps1 & (w1 & ->)%IH1 & (w2 & ->)%IH2).
    exists (w1 +:+ w2). by rewrite string_app_assoc.
  - intros (_ & -> & _). by exists "".
Qed.

Lemma match_sound (ic : bool) (r : Re.regex) (s : string) (m : Re.t) :
  Re.match_ ic r s = Some m → matches ic r s [] (Re.rest m) (Re.groups m).
Proof.
  unfold Re.match_. intros (s' & caps' & Hm & [= <-])%run_sound. done.
Qed.

(** ** The parser raises nothing *)

Arguments Str.startswith : simpl never.
Arguments Str.startswith_any : simpl never.
Arguments Str.contains : simpl never.
Arguments Str.endswith : simpl never.

Lemma bind_Ok {A B} (m : result A) (f : A → result B) (b : B) :
  m ≫= f = Ok b ↔ ∃ a, m = Ok a ∧ f a = Ok b.
Proof.
  destruct m as [a|e]; simpl.
  - split; [eauto|]. by intros (a' & [= <-] & ?).
  - split; [done|]. by intros (? & ? & ?).
Qed.


Lemma is_line_complete_total (line : string) :
  ∃ b, _is_line_complete line = Ok b.
Proof.
  unfold _is_line_complete.
  destruct (Str.startswith "CONSTRAINT" line
            && Str.contains "REFERENCES" line) eqn:E; simpl.
  - apply andb_true_iff in E as [_ Hc].
    destruct (split_go_contains "REFERENCES" "" line) as (x & y & l & Hs);
      [done|done|].
    unfold Str.split. rewrite Hs. simpl. repeat case_match; eauto.
  - repeat case_match; eauto.
Qed.

Lemma star_greedy_always {A} (f : ascii → bool) (s : string) (g : string → A) :
  Re.star_greedy f s (fun s' => Some (g s')) = Some (g (Str.lstrip_by f s)).
Proof.
  induction s as [|a s IH]; simpl; [done|].
  destruct (f a); [|done]. by rewrite IH.
Qed.

(** After the column name, the white space is taken greedily: what is left
    of the line is stripped on the left and follows a white space. *)
Lemma column_match_rest (line : string) (m : Re.t) :
  Re.match_ false column_pattern line = Some m →
  ∃ w a s', line = w +:+ String a s' ∧ Str.is_space a = true
            ∧ Re.rest m = Str.lstrip_by Str.is_space s'.
Proof.
  unfold Re.match_, column_pattern.
  change (Re.run false (backquoted ⋅ Re.Plus Re.CSpace)%re line [] ?k)
    with (Re.run false backquoted line []
            (fun s1 caps1 => Re.run false (Re.Plus Re.CSpace) s1 caps1 k)).
  intros (s1 & caps1 & (w & ->)%matches_suffix & Hplus)%run_sound.
  simpl in Hplus. unfold Re.plus in Hplus.
  destruct s1 as [|a s']; [done|].
  destruct (Str.is_space a) eqn:Ha; [|done].
  rewrite (star_greedy_always _ _ (Re.Match caps1)) in Hplus.
  injection Hplus as <-. by exists w, a, s'.
Qed.

Lemma type_and_attributes_total (rest_of_line : string) :
  Str.lstrip_by Str.is_space rest_of_line ≠ "" →
  ∃ r, type_and_attributes rest_of_line = Ok r.
Proof.
  intros Hne. unfold type_and_attributes, Str.split_ws_1.
  destruct (Str.lstrip_by Str.is_space rest_of_line) as [|a t] eqn:E; [done|].
  destruct (Str.take_word (String a t)) as [w r].
  destruct (Str.lstrip_by Str.is_space r); simpl; eauto.
Qed.

Lemma column_rest_not_blank (l : string) (m : Re.t) :
  Re.match_ false column_pattern (Str.strip l) = Some m →
  Str.lstrip_by Str.is_space (Re.rest m) ≠ "".
Proof.
  intros (w & a & s' & Hline & Ha & Hrest)%column_match_rest Hblank.
  pose proof (ends_space_strip l) as Hends. rewrite Hline in Hends.
  rewrite ends_space_app in Hends by done.
  rewrite ends_space_all in Hends; [done|done|].
  simpl. rewrite Ha. simpl. apply all_chars_lstrip.
  rewrite Hrest in Hblank.
  destruct (Str.lstrip_by Str.is_space s') as [|b t] eqn:E; [done|].
  exfalso. clear -E Hblank.
  induction s' as [|c s' IH]; [done|]. simpl in E.
  destruct (Str.is_space c) eqn:Ec; [by apply IH|].
  injection E as <- <-. simpl in Hblank. by rewrite Ec in Hblank.
Qed.

Lemma parse_column_total (l : string) : ∃ r, parse_column (Str.strip l) = Ok r.
Proof.
  unfold parse_column. destruct (negb _); [|eauto].
  destruct (Re.match_ false column_pattern (Str.strip l)) as [m|] eqn:Hm;
    [|eauto].
  destruct (type_and_attributes_total (Re.rest m)) as ([ty attrs] & Hta).
  { by eapply column_rest_not_blank. }
  destruct (Str.startswith_any _ _).
  - destruct (Re.match_ true enum_pattern (Re.rest m)); simpl; [eauto|].
    rewrite Hta. simpl. eauto.
  - rewrite Hta. simpl. eauto.
Qed.

Lemma parse_clause_total st (line : string) : ∃ st', parse_clause st line = Ok st'.
Proof.
  unfold parse_clause. destruct (parse_column_total line) as (col & ->). simpl.
  destruct col; [eauto|]. destruct (parse_constraint _); eauto.
Qed.

Lemma parse_clauses_total st (cleaned_lines : list string) :
  ∃ st', parse_clauses st cleaned_lines = Ok st'.
Proof.
  revert st. induction cleaned_lines as [|line ls IH]; intros st; simpl; [eauto|].
  destruct (parse_clause_total st line) as (st' & ->). simpl. apply IH.
Qed.

Lemma clean_lines_total (ls cleaned : list string) (current : string) :
  ∃ r, clean_lines ls cleaned current = Ok r.
Proof.
  revert cleaned current. induction ls as [|l ls IH]; intros cleaned current;
    simpl; [eauto|].
  case_bool_decide; [apply IH|].
  match goal with
  | |- context [_is_line_complete ?x] =>
      destruct (is_line_complete_total x) as ([] & ->); simpl; apply IH
  end.
Qed.

Lemma parse_table_total (m : Re.t) : ∃ table, parse_table m = Ok table.
Proof.
  unfold parse_table, segment.
  match goal with
  | |- context [clean_lines ?a ?b ?c] =>
      destruct (clean_lines_total a b c) as (cl & ->)
  end. simpl.
  destruct (parse_clauses_total (∅, []) cl) as ([cols cons] & ->). simpl. eauto.
Qed.

Lemma parse_tables_total (tables : gmap string Table.t) (ms : list Re.t) :
  ∃ tables', parse_tables tables ms = Ok tables'.
Proof.
  revert tables. induction ms as [|m ms IH]; intros tables; simpl; [eauto|].
  destruct (parse_table_total m) as (table & ->). simpl. apply IH.
Qed.

Lemma parse_content_total (content : string) :
  ∃ tables, parse_content content = Ok tables.
Proof. apply parse_tables_total. Qed.

(** ** Parsed constraints *)

Lemma parse_constraint_references (line : string) (c : Constraint.t) :
  parse_constraint line = Some c → references_iff_foreign_key c.
Proof.
  unfold parse_constraint, references_iff_foreign_key.
  repeat (destruct (Re.match_ _ _ _); [intros [= <-]; simpl|]); [..|done];
    split; split; try done; by intros [? [=]].
Qed.

Lemma parse_clause_references st (line : string) st' :
  parse_clause st line = Ok st' →
  Forall references_iff_foreign_key st.2 →
  Forall references_iff_foreign_key st'.2.
Proof.
  unfold parse_clause. intros (col & _ & H)%bind_Ok Hst.
  destruct col; [by injection H as <-|].
  destruct (parse_constraint _) as [c|] eqn:E; injection H as <-; [|done].
  simpl. apply Forall_app. split; [done|]. apply Forall_singleton.
  by eapply parse_constraint_references.
Qed.

Lemma parse_clauses_references (cleaned_lines : list string) st st' :
  parse_clauses st cleaned_lines = Ok st' →
  Forall references_iff_foreign_key st.2 →
  Forall references_iff_foreign_key st'.2.
Proof.
  revert st. induction cleaned_lines as [|line ls IH]; intros st; simpl.
  - by intros [= <-].
  - intros (st1 & H1 & H2)%bind_Ok Hst. eapply IH; [done|].
    by eapply parse_clause_references.
Qed.

Lemma parse_table_references (m : Re.t) (table : Table.t) :
  parse_table m = Ok table →
  Forall references_iff_foreign_key (Table.constraints table).
Proof.
  unfold parse_table. intros (cl & _ & ([cols cons] & H & [= <-])%bind_Ok)%bind_Ok.
  simpl. by apply (parse_clauses_references cl (∅, []) (cols, cons)).
Qed.

Lemma parse_tables_references (ms : list Re.t) (tables tables' : gmap string Table.t) :
  parse_tables tables ms = Ok tables' →
  map_Forall (fun _ t => Forall references_iff_foreign_key (Table.constraints t))
    tables →
  map_Forall (fun _ t => Forall references_iff_foreign_key (Table.constraints t))
    tables'.
Proof.
  revert tables. induction ms as [|m ms IH]; intros tables; simpl.
  - by intros [= <-].
  - intros (table & Ht & H)%bind_Ok Hall. eapply IH; [done|].
    apply map_Forall_insert_2; [|done]. by eapply parse_table_references.
Qed.

(** ** Where table entries come from *)

Lemma create_table_match (s : string) (m : Re.t) :
  Re.match_ false create_table_pattern s = Some m →
  ∃ w1 name w2 body w3 opts,
    s = "CREATE TABLE" +:+ w1 +:+ "`" +:+ name +:+ "`" +:+ w2 +:+ "("
          +:+ body +:+ ")" +:+ w3 +:+ "ENGINE" +:+ opts +:+ ";" +:+ Re.rest m
    ∧ Re.groups m = [name; body; "ENGINE" +:+ opts]
    ∧ (w1 ≠ "" ∧ all_chars Str.is_space w1 = true)
    ∧ (w2 ≠ "" ∧ all_chars Str.is_space w2 = true)
    ∧ all_chars Str.is_space w3 = true
    ∧ Re.at_eol (Re.rest m) = true.
Proof.
  intros H%match_sound. unfold create_table_pattern, backquoted in H.
  cbn [matches] in H.
  repeat match goal with
         | H : ∃ _, _ |- _ => destruct H as [? H]
         | H : _ ∧ _ |- _ => destruct H as [? ?]
         end.
  repeat match goal with
         | H : Re.lit false _ _ = Some _ |- _ => apply lit_exact in H
         end.
  subst.
  match goal with
  | H : Re.groups m = _ |- _ =>
      rewrite !consumed_app in H;
      rewrite <- (string_app_assoc "ENGINE"), consumed_app in H
  end.
  do 6 eexists. split; [reflexivity|]. repeat split; done.
Qed.

Lemma finditer_go_elem (ic : bool) (r : Re.regex) (skip : nat) (s : string)
    (m : Re.t) :
  m ∈ Re.finditer_go ic r skip s →
  ∃ pre s0, s = pre +:+ s0 ∧ Re.match_ ic r s0 = Some m.
Proof.
  revert skip. induction s as [|a s IH]; intros skip; simpl.
  - destruct skip; [|by intros ?%elem_of_nil].
    destruct (Re.match_ ic r "") as [m'|] eqn:E; simpl;
      [|by intros ?%elem_of_nil].
    intros ->%list_elem_of_singleton. by exists "", "".
  - assert (∀ k, m ∈ Re.finditer_go ic r k s →
              ∃ pre s0, String a s = pre +:+ s0 ∧ Re.match_ ic r s0 = Some m)
      as Hstep.
    { intros k (pre & s0 & -> & ?)%IH. by exists (String a pre), s0. }
    destruct skip; [|apply Hstep].
    destruct (Re.match_ ic r (String a s)) as [m'|] eqn:E; [|apply Hstep].
    intros [->|?]%elem_of_cons; [|by eapply Hstep].
    by exists "", (String a s).
Qed.

Lemma parse_table_name (m : Re.t) (table : Table.t) :
  parse_table m = Ok table → Table.name table = Re.group m 1.
Proof.
  unfold parse_table.
  by intros (cl & _ & ([cols cons] & _ & [= <-])%bind_Ok)%bind_Ok.
Qed.

Lemma parse_tables_dom (ms : list Re.t) (tables tables' : gmap string Table.t)
    (T : string) :
  parse_tables tables ms = Ok tables' → T ∈ dom tables' →
  T ∈ dom tables ∨ ∃ m, m ∈ ms ∧ Re.group m 1 = T.
Proof.
  revert tables. induction ms as [|m ms IH]; intros tables; simpl.
  - intros [= <-]. by left.
  - intros (table & Ht & H)%bind_Ok HT.
    destruct (IH _ H HT) as [Hd|(m' & ? & ?)].
    + rewrite dom_insert, elem_of_union, elem_of_singleton in Hd.
      destruct Hd as [->|?]; [|by left].
      right. exists m. split; [by left|]. symmetry. by apply parse_table_name.
    + right. exists m'. split; [by right|done].
Qed.

(** ** Fallible loops and sorted sets *)

Lemma for_each_Ok {A B} (f : A → result B) (g : A → B) (l : list A) :
  (∀ x, x ∈ l → f x = Ok (g x)) → for_each f l = Ok (g <$> l).
Proof.
  induction l as [|x l IH]; intros Hf; simpl; [done|].
  rewrite Hf by left. simpl. rewrite IH; [done|].
  intros y Hy. apply Hf. by right.
Qed.

Lemma for_each_elem {A B} (f : A → result B) (l : list A) (ys : list B) (x : A) :
  for_each f l = Ok ys → x ∈ l → ∃ y, f x = Ok y ∧ y ∈ ys.
Proof.
  revert ys. induction l as [|x' l IH]; intros ys Hfe Hx.
  - by apply elem_of_nil in Hx.
  - simpl in Hfe. apply bind_Ok in Hfe as (y & Hy & Hfe).
    apply bind_Ok in Hfe as (ys' & Hys' & [= <-]).
    apply elem_of_cons in Hx as [->|Hx].
    + exists y. split; [done|]. by left.
    + destruct (IH ys' Hys' Hx) as (y' & ? & ?). exists y'. split; [done|].
      by right.
Qed.

Lemma elem_of_sorted (X : gset string) (x : string) : x ∈ sorted X ↔ x ∈ X.
Proof. unfold sorted. by rewrite merge_sort_Permutation, elem_of_elements. Qed.

Lemma elem_of_sorted_keys (X : gset (string * list string)) k :
  k ∈ sorted_keys X ↔ k ∈ X.
Proof.
  unfold sorted_keys. by rewrite merge_sort_Permutation, elem_of_elements.
Qed.

(** [sorted] and [sorted_keys] do sort: the orders are total and
    transitive, so the result is the increasing list of the elements, each
    once. *)
Lemma sorted_increasing (X : gset string) :
  StronglySorted String.le (sorted X) ∧ NoDup (sorted X).
Proof.
  split.
  - apply StronglySorted_merge_sort; apply _.
  - unfold sorted. rewrite merge_sort_Permutation. apply NoDup_elements.
Qed.

Lemma leb_le (x y : string) : String.leb x y = true ↔ String.le x y.
Proof. unfold String.le. by destruct (String.leb x y). Qed.

Lemma leb_trans_ne (x y z : string) :
  x ≠ y → y ≠ z → String.leb x y = true → String.leb y z = true →
  x ≠ z ∧ String.leb x z = true.
Proof.
  rewrite !leb_le. intros Hxy Hyz H1 H2. split.
  - intros ->. apply Hxy. by apply (anti_symm String.le).
  - by trans y.
Qed.

(** The lexicographic combination of "equal, then compare the rest" and
    "different, then compare here" is transitive and total. *)
Lemma lex_trans (x y z : string) (p q r : bool) :
  (p = true → q = true → r = true) →
  (if bool_decide (x = y) then p else String.leb x y) = true →
  (if bool_decide (y = z) then q else String.leb y z) = true →
  (if bool_decide (x = z) then r else String.leb x z) = true.
Proof.
  intros Hpqr.
  destruct (decide (x = y)) as [->|Hxy], (decide (y = z)) as [->|Hyz];
    rewrite ?bool_decide_true, ?bool_decide_false by done; try done.
  intros H1 H2. destruct (leb_trans_ne x y z) as [Hxz ->]; try done.
  by rewrite bool_decide_false.
Qed.

Lemma lex_total (x y : string) (p q : bool) :
  (p = true ∨ q = true) →
  (if bool_decide (x = y) then p else String.leb x y) = true
  ∨ (if bool_decide (y = x) then q else String.leb y x) = true.
Proof.
  intros Hpq. destruct (decide (x = y)) as [->|Hxy].
  - by rewrite !bool_decide_true.
  - rewrite !bool_decide_false by done. rewrite !leb_le.
    apply (total String.le).
Qed.

Lemma tuple_le_trans (a b c : list string) :
  tuple_le a b = true → tuple_le b c = true → tuple_le a c = true.
Proof.
  revert b c. induction a as [|x a IH]; intros [|y b] [|z c]; simpl; try done.
  apply lex_trans, IH.
Qed.

Lemma tuple_le_total (a b : list string) :
  tuple_le a b = true ∨ tuple_le b a = true.
Proof.
  revert b. induction a as [|x a IH]; intros [|y b]; simpl; auto.
  apply lex_total, IH.
Qed.

Global Instance key_le_trans : Transitive key_le.
Proof.
  intros [t1 c1] [t2 c2] [t3 c3]. unfold key_le, key_leb. simpl.
  rewrite !Is_true_true. apply lex_trans, tuple_le_trans.
Qed.

Global Instance key_le_total : Total key_le.
Proof.
  intros [t1 c1] [t2 c2]. unfold key_le, key_leb. simpl.
  rewrite !Is_true_true. apply lex_total, tuple_le_total.
Qed.

Lemma sorted_keys_increasing (X : gset (string * list string)) :
  StronglySorted key_le (sorted_keys X) ∧ NoDup (sorted_keys X).
Proof.
  split.
  - apply StronglySorted_merge_sort; apply _.
  - unfold sorted_keys. rewrite merge_sort_Permutation. apply NoDup_elements.
Qed.

Lemma sorted_empty : sorted ∅ = [].
Proof. unfold sorted. by rewrite elements_empty. Qed.

Lemma concat_nil_fmap {A B} (l : list A) : concat ((fun _ => @nil B) <$> l) = [].
Proof. induction l; simpl; auto. Qed.

(** ** The per-key dictionary of constraints *)

Lemma foldl_by_key_lookup (cs : list Constraint.t)
    (d : gmap (string * list string) Constraint.t) k c :
  foldl (fun d c => <[constraint_key c := c]> d) d cs !! k = Some c →
  (c ∈ cs ∧ constraint_key c = k) ∨ d !! k = Some c.
Proof.
  revert d. induction cs as [|c' cs IH]; intros d; simpl; [by right|].
  intros H. apply IH in H as [[? ?]|H].
  - left. split; [by right|done].
  - rewrite lookup_insert in H. case_decide as Hk.
    + injection H as <-. left. split; [by left|done].
    + by right.
Qed.

Lemma foldl_by_key_dom (cs : list Constraint.t)
    (d : gmap (string * list string) Constraint.t) k :
  k ∈ dom (foldl (fun d c => <[constraint_key c := c]> d) d cs) ↔
  k ∈ dom d ∨ ∃ c, c ∈ cs ∧ constraint_key c = k.
Proof.
  revert d. induction cs as [|c' cs IH]; intros d; simpl.
  - split; [by left|]. intros [?|(c & Hc & _)]; [done|].
    by apply elem_of_nil in Hc.
  - rewrite IH, dom_insert, elem_of_union, elem_of_singleton. split.
    + intros [[->|?]|(c & ? & ?)].
      * right. exists c'. split; [by left|done].
      * by left.
      * right. exists c. split; [by right|done].
    + intros [?|(c & Hc & Hk)]; [by left; right|].
      apply elem_of_cons in Hc as [->|Hc].
      * left. by left.
      * right. by exists c.
Qed.

Lemma constraints_by_key_lookup (cs : list Constraint.t) k c :
  constraints_by_key cs !! k = Some c → c ∈ cs ∧ constraint_key c = k.
Proof.
  intros H. apply foldl_by_key_lookup in H as [?|H]; [done|].
  by rewrite lookup_empty in H.
Qed.

Lemma constraints_by_key_dom (cs : list Constraint.t) k :
  k ∈ dom (constraints_by_key cs) ↔ ∃ c, c ∈ cs ∧ constraint_key c = k.
Proof.
  unfold constraints_by_key. rewrite foldl_by_key_dom, dom_empty.
  split; [|by right]. by intros [?%not_elem_of_empty|?].
Qed.

Lemma constraint_block_empty heading sign d :
  constraint_block heading sign d ∅ = Ok [].
Proof. unfold constraint_block. by rewrite bool_decide_false by (by intros []). Qed.

Lemma constraint_block_elem heading sign d keys ls k :
  constraint_block heading sign d keys = Ok ls → k ∈ keys →
  ∃ c line rest,
    d !! k = Some c ∧ constraint_line sign c = Ok line
    ∧ ls = heading :: rest ∧ line ∈ rest.
Proof.
  unfold constraint_block. intros Hb Hk.
  rewrite bool_decide_true in Hb by set_solver.
  apply bind_Ok in Hb as (rest & Hfe & [= <-]).
  eapply for_each_elem in Hfe as (line & Hline & Hin);
    [|by apply elem_of_sorted_keys].
  apply bind_Ok in Hline as (c & Hc & Hline).
  unfold py_getitem in Hc. destruct (d !! k) as [c'|] eqn:E; [|done].
  injection Hc as ->. by exists c, line, rest.
Qed.

(** ** Equality of the schema model *)

Lemma Column_eq_spec (c1 c2 : Column.t) : Column.__eq__ c1 c2 = true ↔ c1 = c2.
Proof.
  unfold Column.__eq__. rewrite !andb_true_iff, !bool_decide_eq_true.
  split; [|intros E; by subst].
  destruct c1, c2; simpl. intros ((((? & ?) & ?) & ?) & ?). congruence.
Qed.

Lemma Constraint_eq_spec (c1 c2 : Constraint.t) :
  Constraint.__eq__ c1 c2 = true ↔ c1 = c2.
Proof.
  unfold Constraint.__eq__. rewrite !andb_true_iff, !bool_decide_eq_true.
  split; [|intros E; by subst].
  destruct c1, c2; simpl. intros ((((? & ?) & ?) & ?) & ?). congruence.
Qed.

(** C7 as stated fails: two tables that agree on name, columns, charset
    and collation, and whose constraints cover the same identity keys, but
    whose foreign key is named differently, are not equal. *)
Lemma Table_eq_renamed_constraint :
  let t1 := orders_table "fk_1" in
  let t2 := orders_table "fk_2" in
  Table.name t1 = Table.name t2
  ∧ Table.columns t1 = Table.columns t2
  ∧ Table.charset t1 = Table.charset t2
  ∧ Table.collation t1 = Table.collation t2
  ∧ list_to_set (constraint_key <$> Table.constraints t1)
      =@{gset (string * list string)}
    list_to_set (constraint_key <$> Table.constraints t2)
  ∧ Table.__eq__ t1 t2 = false.
Proof. repeat split; vm_compute; reflexivity. Qed.

(** C7, amended: [Table.__eq__] compares the constraints as a set of
    whole constraints (all five fields, the name included): two tables
    are equal exactly when they agree on name, columns, charset and
    collation and every constraint of one occurs in the other, whatever
    the order and the repetitions in the two sequences. *)
Theorem Table_eq_constraints_as_set (t1 t2 : Table.t) :
  Table.__eq__ t1 t2 = true ↔
    Table.name t1 = Table.name t2
    ∧ Table.columns t1 = Table.columns t2
    ∧ (∀ c, c ∈ Table.constraints t1 ↔ c ∈ Table.constraints t2)
    ∧ Table.charset t1 = Table.charset t2
    ∧ Table.collation t1 = Table.collation t2.
Proof.
  unfold Table.__eq__. rewrite !andb_true_iff, !bool_decide_eq_true.
  rewrite set_eq. setoid_rewrite elem_of_list_to_set. tauto.
Qed.

(** Order and repetition of the constraints do not matter. *)
Corollary Table_eq_Permutation (t : Table.t) (cs : list Constraint.t) :
  cs ≡ₚ Table.constraints t ++ Table.constraints t →
  Table.__eq__ t
    (Table.mk (Table.name t) (Table.columns t) cs (Table.charset t)
       (Table.collation t)) = true.
Proof.
  intros Hp. unfold Table.__eq__. simpl.
  rewrite !andb_true_iff, !bool_decide_eq_true. repeat split; try done.
  apply set_eq. intros c. rewrite !elem_of_list_to_set, Hp, elem_of_app. tauto.
Qed.

(** ** Tables present in one dump only *)

Lemma elem_of_tables_block heading (X : gset string) (T : string) :
  String.prefix "  - " heading = false →
  ("  - " +:+ T) ∈ tables_block heading X ↔ T ∈ X.
Proof.
  intros Hh. unfold tables_block. case_bool_decide as HX.
  - rewrite elem_of_cons, elem_of_app, list_elem_of_fmap, list_elem_of_singleton.
    split.
    + intros [E|[(T' & E & HT')|E]].
      * rewrite <- E in Hh. cbv in Hh. destruct T; discriminate Hh.
      * apply (inj (String.app "  - ")) in E as ->. by apply elem_of_sorted.
      * done.
    + intros HT. right; left. exists T. split; [done|]. by apply elem_of_sorted.
  - rewrite HX. split; [by intros ?%elem_of_nil|].
    by intros ?%not_elem_of_empty.
Qed.

(** C6: the report of A against B lists T in the block of the tables
    found in the second file only ("added") exactly when the report of B
    against A lists it in the block of the tables found in the first file
    only ("removed"), and the other way round; a table is listed as added
    exactly when it is a table of B and not of A. *)
Theorem added_iff_removed_swapped (A B : gmap string Table.t) (T : string) :
  (("  - " +:+ T) ∈ extra_tables_block A B
     ↔ ("  - " +:+ T) ∈ missing_tables_block B A)
  ∧ (("  - " +:+ T) ∈ missing_tables_block A B
     ↔ ("  - " +:+ T) ∈ extra_tables_block B A)
  ∧ (("  - " +:+ T) ∈ extra_tables_block A B ↔ T ∈ dom B ∧ T ∉ dom A)
  ∧ (∀ ls, report_lines A B = Ok ls →
       ∃ blocks, ls = missing_tables_block A B ++ extra_tables_block A B
                        ++ blocks).
Proof.
  unfold extra_tables_block, missing_tables_block, extra_tables, missing_tables.
  rewrite !elem_of_tables_block by done. rewrite elem_of_difference.
  repeat split; try tauto.
  intros ls Hls. unfold report_lines in Hls.
  apply bind_Ok in Hls as (blocks & _ & [= <-]). by exists (concat blocks).
Qed.

(** ** Lines of a report *)

Lemma elem_of_concat {A} (x : A) (ls : list (list A)) :
  x ∈ concat ls ↔ ∃ l, l ∈ ls ∧ x ∈ l.
Proof.
  induction ls as [|l ls IH]; simpl.
  - split; [by intros ?%elem_of_nil|]. by intros (l & ?%elem_of_nil & _).
  - rewrite elem_of_app, IH. split.
    + intros [?|(l' & ? & ?)]; [exists l|exists l']; split; try done;
        by constructor.
    + intros (l' & [->|?]%elem_of_cons & ?); [by left|right; by exists l'].
Qed.

(** ** A schema against itself *)

Lemma compare_column_same col_name (c : Column.t) :
  compare_column col_name c c = [].
Proof. unfold compare_column. by rewrite bool_decide_false by (by intros []). Qed.

Lemma compare_columns_same (t : Table.t) : compare_columns t t = Ok [].
Proof.
  unfold compare_columns. rewrite difference_diag_L.
  rewrite !bool_decide_false by (by intros []). simpl.
  rewrite (for_each_Ok _ (fun _ => [])).
  - simpl. by rewrite concat_nil_fmap.
  - intros col Hcol. apply elem_of_sorted in Hcol.
    apply elem_of_intersection in Hcol as [[c Hc]%elem_of_dom _].
    unfold py_getitem. rewrite Hc. simpl. by rewrite compare_column_same.
Qed.

Lemma compare_constraints_same (t : Table.t) : compare_constraints t t = Ok [].
Proof.
  unfold compare_constraints, removed_constraints_block,
    added_constraints_block, missing_constraints, extra_constraints.
  rewrite difference_diag_L. by rewrite !constraint_block_empty.
Qed.

Lemma compare_table_same (t : Table.t) : compare_table t t = Ok [].
Proof.
  unfold compare_table. rewrite compare_columns_same, compare_constraints_same.
  simpl. by rewrite !bool_decide_false by (by intros []).
Qed.

Lemma report_lines_same (S : gmap string Table.t) : report_lines S S = Ok [].
Proof.
  unfold report_lines. rewrite (for_each_Ok _ (fun _ => [])).
  - simpl. rewrite concat_nil_fmap.
    unfold missing_tables_block, extra_tables_block, missing_tables,
      extra_tables, tables_block.
    rewrite difference_diag_L. by rewrite !bool_decide_false by (by intros []).
  - intros T HT. apply elem_of_sorted in HT.
    apply elem_of_intersection in HT as [[t Ht]%elem_of_dom _].
    unfold common_table_block, py_getitem. rewrite Ht. simpl.
    rewrite compare_table_same. simpl. done.
Qed.

Lemma compare_tables_same (S : gmap string Table.t) :
  SQLDiff.compare_tables S S = Ok NO_DIFFERENCE.
Proof. unfold SQLDiff.compare_tables. by rewrite report_lines_same. Qed.

Lemma init_File (fs : gmap string node) (path content : string) :
  fs !! path = Some (File content) →
  MySQLDumpParser.init fs path
    = MySQLDumpParser.mk path <$> parse_content content.
Proof.
  intros H. unfold MySQLDumpParser.init, MySQLDumpParser.parse, parse_content.
  simpl. rewrite H. by destruct (parse_tables _ _).
Qed.

(** C5: a schema compared with itself gives the "no difference" sentence
    and nothing else; so does the comparison of two files holding the same
    dump, whatever the dump. *)
Theorem diff_against_itself :
  (∀ S : gmap string Table.t, SQLDiff.compare_tables S S = Ok NO_DIFFERENCE)
  ∧ (∀ content, ∃ S, parse_content content = Ok S
                     ∧ SQLDiff.compare_tables S S = Ok NO_DIFFERENCE)
  ∧ (∀ (fs : gmap string node) (file1 file2 content : string),
       fs !! file1 = Some (File content) →
       fs !! file2 = Some (File content) →
       SQLDiff.init fs file1 file2 ≫= SQLDiff.compare = Ok NO_DIFFERENCE).
Proof.
  split; [apply compare_tables_same|]. split.
  - intros content. destruct (parse_content_total content) as (S & HS).
    exists S. split; [done|]. apply compare_tables_same.
  - intros fs file1 file2 content H1 H2. unfold SQLDiff.init.
    rewrite (init_File _ _ _ H1), (init_File _ _ _ H2).
    destruct (parse_content_total content) as (S & ->). simpl.
    apply compare_tables_same.
Qed.

Lemma diff_against_itself_witness :
  SQLDiff.init {[ "a.sql" := File (orders_dump "fk_1") ]} "a.sql" "a.sql"
    ≫= SQLDiff.compare = Ok NO_DIFFERENCE.
Proof.
  apply (proj2 (proj2 diff_against_itself)
           {[ "a.sql" := File (orders_dump "fk_1") ]} "a.sql" "a.sql"
           (orders_dump "fk_1")); reflexivity.
Defined.

(** ** Referenced table and columns *)

(** C9: parsing any dump succeeds, and in every table of the result every
    constraint has a referenced table, and has referenced columns, exactly
    when its kind is FOREIGN KEY. *)
Theorem parsed_references_iff_foreign_key (content : string) :
  ∃ tables, parse_content content = Ok tables
    ∧ ∀ T table c,
        tables !! T = Some table → c ∈ Table.constraints table →
        (is_Some (Constraint.referenced_table c)
           ↔ Constraint.constraint_type c = "FOREIGN KEY")
        ∧ (is_Some (Constraint.referenced_columns c)
           ↔ Constraint.constraint_type c = "FOREIGN KEY").
Proof.
  destruct (parse_content_total content) as (tables & Htables).
  exists tables. split; [done|]. intros T table c HT Hc.
  pose proof (parse_tables_references _ _ _ Htables) as Hall.
  specialize (Hall (map_Forall_empty _)). specialize (Hall T table HT).
  simpl in Hall. rewrite Forall_forall in Hall. by apply Hall.
Qed.

Lemma parsed_references_iff_foreign_key_witness :
  ∃ tables, parse_content (orders_dump "fk_1") = Ok tables
    ∧ tables !! "orders" = Some (orders_table "fk_1")
    ∧ ((is_Some (Constraint.referenced_table (fk_users "fk_1"))
          ↔ Constraint.constraint_type (fk_users "fk_1") = "FOREIGN KEY")
       ∧ (is_Some (Constraint.referenced_columns (fk_users "fk_1"))
          ↔ Constraint.constraint_type (fk_users "fk_1") = "FOREIGN KEY")).
Proof.
  destruct (parsed_references_iff_foreign_key (orders_dump "fk_1"))
    as (tables & Hp & Hall).
  exists tables. split; [done|].
  assert (tables !! "orders" = Some (orders_table "fk_1")) as Ht.
  { assert (parse_content (orders_dump "fk_1")
            = Ok {[ "orders" := orders_table "fk_1" ]}) as E
      by (vm_compute; reflexivity).
    rewrite E in Hp. by injection Hp as <-. }
  split; [done|]. apply (Hall "orders" (orders_table "fk_1")); [done|].
  by left.
Defined.

(** ** Statements without ENGINE *)

(** C10, where the code departs from the claim.  The dump is the statement
    for table a, whose options tail [DEFAULT CHARSET=utf8;] does not begin
    with ENGINE, followed by the statement for table b, which has its
    ENGINE.  Alone, the first statement gives no table, as the claim says,
    and the second gives table b.  Together they give an entry for a, the
    body of which runs on to the closing parenthesis before the ENGINE of
    b's statement (so that the column id gets the default CHARSET=utf8;),
    and no entry for b. *)
Theorem no_engine_statement_swallows_next :
  no_engine_dump = no_engine_alone +:+ engine_statement
  ∧ parse_content no_engine_alone = Ok ∅
  ∧ parse_content engine_statement
    = Ok {[ "b" := Table.mk "b"
                     {[ "x" := Column.mk "x" "int(11)" false None "" ]}
                     [] None None ]}
  ∧ parse_content no_engine_dump
    = Ok {[ "a" := Table.mk "a"
                     {[ "id" := Column.mk "id" "int(11)" false
                                  (Some "CHARSET=utf8;") "" ]}
                     [] None None ]}.
Proof. repeat split; vm_compute; reflexivity. Qed.

(** Where table entries come from: parsing raises nothing, and a table
    entry named T is there only when the dump holds CREATE TABLE, white
    space, T between backquotes, white space, an opening parenthesis, a
    body, a closing parenthesis, optional white space, ENGINE, options and
    a semicolon followed by a line feed or by the end of the text.  So a
    dump in which ENGINE does not occur yields no table at all. *)
Lemma table_entry_needs_engine (content : string) :
  ∃ tables, parse_content content = Ok tables
    ∧ (∀ T, T ∈ dom tables →
         ∃ pre w1 w2 body w3 opts rest,
           content = pre +:+ "CREATE TABLE" +:+ w1 +:+ "`" +:+ T +:+ "`"
                       +:+ w2 +:+ "(" +:+ body +:+ ")" +:+ w3
                       +:+ "ENGINE" +:+ opts +:+ ";" +:+ rest
           ∧ (w1 ≠ "" ∧ all_chars Str.is_space w1 = true)
           ∧ (w2 ≠ "" ∧ all_chars Str.is_space w2 = true)
           ∧ all_chars Str.is_space w3 = true
           ∧ Re.at_eol rest = true)
    ∧ (Str.contains "ENGINE" content = false → tables = ∅).
Proof.
  destruct (parse_content_total content) as (tables & Htables).
  exists tables. split; [done|].
  assert (∀ T, T ∈ dom tables →
         ∃ pre w1 w2 body w3 opts rest,
           content = pre +:+ "CREATE TABLE" +:+ w1 +:+ "`" +:+ T +:+ "`"
                       +:+ w2 +:+ "(" +:+ body +:+ ")" +:+ w3
                       +:+ "ENGINE" +:+ opts +:+ ";" +:+ rest
           ∧ (w1 ≠ "" ∧ all_chars Str.is_space w1 = true)
           ∧ (w2 ≠ "" ∧ all_chars Str.is_space w2 = true)
           ∧ all_chars Str.is_space w3 = true
           ∧ Re.at_eol rest = true) as Hdec.
  { intros T HT.
    destruct (parse_tables_dom _ _ _ T Htables HT) as [H|(m & Hm & HmT)].
    { by rewrite dom_empty in H. }
    apply finditer_go_elem in Hm as (pre & s0 & -> & Hmatch).
    apply create_table_match in Hmatch
      as (w1 & name & w2 & body & w3 & opts & -> & Hg & ? & ? & ? & ?).
    unfold Re.group in HmT. rewrite Hg in HmT. simpl in HmT. subst name.
    by exists pre, w1, w2, body, w3, opts, (Re.rest m). }
  split; [done|].
  intros Hno. apply dom_empty_iff_L. apply elem_of_equiv_empty_L. intros T HT.
  destruct (Hdec T HT) as (pre & w1 & w2 & body & w3 & opts & rest & -> & _).
  rewrite <- not_true_iff_false in Hno. apply Hno.
  do 11 apply contains_app_r. apply (contains_app "ENGINE" "").
Qed.

Example no_engine_alone_empty :
  ∃ tables, parse_content no_engine_alone = Ok tables ∧ tables = ∅.
Proof.
  destruct (table_entry_needs_engine no_engine_alone) as (tables & Hp & _ & H).
  exists tables. split; [done|]. apply H. vm_compute. reflexivity.
Qed.

(** ** Missing input file *)

(** C8: constructing the parser on a path that names nothing raises
    [FileNotFoundError]; the result is the exception, so no parser and no
    table mapping reach the caller. *)
Theorem init_missing_file (fs : gmap string node) (path : string) :
  fs !! path = None →
  MySQLDumpParser.init fs path
    = Raise (FileNotFoundError ("Le fichier " +:+ path +:+ " n'existe pas."))
  ∧ ∀ parser, MySQLDumpParser.init fs path ≠ Ok parser.
Proof.
  intros Hnone. unfold MySQLDumpParser.init, MySQLDumpParser.parse. simpl.
  rewrite Hnone. split; [done|]. by intros ?.
Qed.

Lemma init_missing_file_witness :
  MySQLDumpParser.init {[ "a.sql" := File (orders_dump "fk_1") ]} "b.sql"
    = Raise (FileNotFoundError "Le fichier b.sql n'existe pas.")
  ∧ ∀ parser,
      MySQLDumpParser.init {[ "a.sql" := File (orders_dump "fk_1") ]} "b.sql"
        ≠ Ok parser.
Proof.
  apply (init_missing_file {[ "a.sql" := File (orders_dump "fk_1") ]} "b.sql").
  reflexivity.
Defined.

(** The differ is not built either when one of its two files is missing. *)
Lemma SQLDiff_init_missing_file (fs : gmap string node) (file1 file2 : string) :
  fs !! file1 = None ∨ fs !! file2 = None →
  ∀ d, SQLDiff.init fs file1 file2 ≠ Ok d.
Proof.
  intros H d. unfold SQLDiff.init.
  destruct (MySQLDumpParser.init fs file1) as [p1|e1] eqn:E1; simpl; [|done].
  destruct (MySQLDumpParser.init fs file2) as [p2|e2] eqn:E2; simpl; [|done].
  unfold MySQLDumpParser.init, MySQLDumpParser.parse in E1, E2.
  simpl in E1, E2. destruct H as [H|H].
  - by rewrite H in E1.
  - by rewrite H in E2.
Qed.

(** ** Column clauses *)

(** C2: the clause [`id` int(11) NOT NULL AUTO_INCREMENT] parses to the
    column named id, of type int(11), not nullable, without default, with
    extra AUTO_INCREMENT; as a clause, as a turn of the loop, and inside a
    whole CREATE TABLE statement. *)
Theorem parse_id_column :
  parse_column id_clause = Ok (Some id_column)
  ∧ parse_clause (∅, []) id_clause = Ok ({[ "id" := id_column ]}, [])
  ∧ parse_content (one_clause_dump id_clause)
      = Ok {[ "t" := Table.mk "t" {[ "id" := id_column ]} [] None None ]}.
Proof. repeat split; vm_compute; reflexivity. Qed.

(** C3: the clause [`status` enum('a','b','c') NOT NULL DEFAULT 'a'] parses
    to a column whose type is enum('a','b','c'), not nullable, with default
    'a' (quotes included). *)
Theorem parse_status_column :
  parse_column status_clause = Ok (Some status_column)
  ∧ Column.data_type status_column = "enum('a','b','c')"
  ∧ Column.nullable status_column = false
  ∧ Column.default status_column = Some "'a'"
  ∧ parse_content (one_clause_dump status_clause)
      = Ok {[ "t" := Table.mk "t" {[ "status" := status_column ]} [] None None ]}.
Proof. repeat split; vm_compute; reflexivity. Qed.

(** ** Line completeness *)

(** C4, where the code departs from the rule: on a foreign key clause in
    which REFERENCES occurs twice, the text after the first REFERENCES
    holds a closing parenthesis, so the rule makes the fragment complete;
    the code looks only at the text between the first two occurrences and
    answers that it is not. *)
Theorem is_line_complete_second_REFERENCES :
  line_complete_spec fk_references_clause = true
  ∧ _is_line_complete fk_references_clause = Ok false.
Proof. split; vm_compute; reflexivity. Qed.

(** A backquoted identifier holds a backquote. *)
Lemma closes_identifier_contains (nonempty : bool) (s : string) :
  closes_identifier nonempty s = true → Str.contains "`" s = true.
Proof.
  revert nonempty. induction s as [|a s IH]; intros nonempty; [done|].
  cbn [closes_identifier]. case_bool_decide as Ha.
  - subst a. intros _. apply (contains_app "`" "").
  - intros H%IH. by apply (contains_app_r _ (String a "")).
Qed.

Lemma has_backquoted_identifier_contains (s : string) :
  has_backquoted_identifier s = true → Str.contains "`" s = true.
Proof.
  induction s as [|a s IH]; [done|].
  cbn [has_backquoted_identifier]. case_bool_decide as Ha.
  - subst a. intros _. apply (contains_app "`" "").
  - intros H%IH. by apply (contains_app_r _ (String a "")).
Qed.

(** Where the code and the three rules agree: REFERENCES occurs at most
    once, the fragment does not begin with FOREIGN KEY (a prefix only the
    code tests), and a fragment that holds a backquote holds a backquoted
    identifier (the code tests the backquote only). *)
Lemma is_line_complete_single_REFERENCES (line : string) :
  (∀ tail, after_first "REFERENCES" line = Some tail →
           Str.contains "REFERENCES" tail = false) →
  Str.startswith "FOREIGN KEY" line = false →
  (Str.contains "`" line = true → has_backquoted_identifier line = true) →
  _is_line_complete line = Ok (line_complete_spec line).
Proof.
  intros Hone Hfk Hid.
  assert (has_backquoted_identifier line = Str.contains "`" line) as Hbq.
  { destruct (Str.contains "`" line) eqn:E; [by apply Hid|].
    destruct (has_backquoted_identifier line) eqn:E'; [|done].
    apply has_backquoted_identifier_contains in E'. congruence. }
  assert (Str.startswith_any RULE_KEYWORDS line
          = Str.startswith_any CLAUSE_PREFIXES line) as Hkw.
  { unfold RULE_KEYWORDS, CLAUSE_PREFIXES, Str.startswith_any.
    cbn [existsb]. rewrite Hfk.
    destruct (Str.startswith "CONSTRAINT" line),
      (Str.startswith "PRIMARY KEY" line),
      (Str.startswith "UNIQUE KEY" line), (Str.startswith "KEY" line); done. }
  unfold _is_line_complete, line_complete_spec, KEY_PREFIXES.
  rewrite Hbq, Hkw.
  rewrite (contains_after_first "REFERENCES").
  destruct (after_first "REFERENCES" line) as [tail|] eqn:E.
  - destruct (split_second "REFERENCES" "" line tail) as (x & l & Hs);
      [done|done|].
    unfold Str.split. rewrite Hs, before_first_none by by apply Hone.
    destruct (Str.startswith "CONSTRAINT" line); simpl;
      repeat case_match; simplify_eq/=; done.
  - rewrite !andb_false_r. simpl. repeat case_match; simplify_eq/=; done.
Qed.

(** What follows from it: the fragment stays pending, the next clause is
    merged into it, and the second foreign key of the table is lost. *)
Example two_fk_dump_loses_fk_b :
  Table.constraints <$> (tables ← parse_content two_fk_dump;
                         py_getitem tables "t")
  = Ok [Constraint.mk "fk_a" "FOREIGN KEY" ["a"] (Some "REFERENCES_T")
          (Some ["id"])].
Proof. vm_compute. reflexivity. Qed.

(** ** The string and pattern functions on small inputs *)

Example ex_complete_fk :
  _is_line_complete
    "CONSTRAINT `fk_1` FOREIGN KEY (`user_id`) REFERENCES `users` (`id`)"
  = Ok true.
Proof. vm_compute. reflexivity. Qed.

Example ex_split :
  Str.split ("," +:+ Str.nl) ("a,b," +:+ Str.nl +:+ "c," +:+ Str.nl)
  = ["a,b"; "c"; ""].
Proof. vm_compute. reflexivity. Qed.

Example ex_split_ws :
  Str.split_ws_1 "  int(11)   NOT NULL  " = ["int(11)"; "NOT NULL  "].
Proof. vm_compute. reflexivity. Qed.

Example ex_strip : Str.strip "  a b  " = "a b".
Proof. vm_compute. reflexivity. Qed.

(** * Further properties of the parser and of the differ *)

(** ** Exceptions *)

Lemma for_each_total {A B} (f : A → result B) (l : list A) :
  (∀ x, x ∈ l → ∃ y, f x = Ok y) → ∃ ys, for_each f l = Ok ys.
Proof.
  induction l as [|x l IH]; intros Hf; simpl; [eauto|].
  destruct (Hf x) as (y & ->); [by left|]. simpl.
  destruct IH as (ys & ->); [|simpl; eauto].
  intros x' Hx'. apply Hf. by right.
Qed.

Lemma for_each_Raise {A B} (f : A → result B) (l : list A) (e : exn) :
  for_each f l = Raise e → ∃ x, x ∈ l ∧ f x = Raise e.
Proof.
  induction l as [|x l IH]; simpl; [done|].
  destruct (f x) as [y|e'] eqn:E; simpl.
  - destruct (for_each f l) as [ys|e'']; simpl; [done|].
    intros [= ->]. destruct IH as (x' & ? & ?); [done|].
    exists x'. split; [by right|done].
  - intros [= ->]. exists x. split; [by left|done].
Qed.

Lemma compare_columns_total (table1 table2 : Table.t) :
  ∃ ls, compare_columns table1 table2 = Ok ls.
Proof.
  unfold compare_columns.
  match goal with
  | |- context [for_each ?f (sorted (dom (Table.columns table2)
                                      ∖ dom (Table.columns table1)))] =>
      destruct (for_each_total f
                  (sorted (dom (Table.columns table2)
                             ∖ dom (Table.columns table1)))) as (added & Ha)
  end.
  { intros col [[c Hc]%elem_of_dom _]%elem_of_sorted%elem_of_difference.
    unfold py_getitem. rewrite Hc. simpl. eauto. }
  match goal with
  | |- context [for_each ?f (sorted (dom (Table.columns table1)
                                      ∩ dom (Table.columns table2)))] =>
      destruct (for_each_total f
                  (sorted (dom (Table.columns table1)
                             ∩ dom (Table.columns table2)))) as (modified & Hm)
  end.
  { intros col [[c1 Hc1]%elem_of_dom [c2 Hc2]%elem_of_dom]
             %elem_of_sorted%elem_of_intersection.
    unfold py_getitem. rewrite Hc1, Hc2. simpl. eauto. }
  rewrite Ha, Hm. repeat case_bool_decide; simpl; eauto.
Qed.

(** A constraint whose line can be written: a foreign key has its
    referenced columns. *)
Lemma constraint_line_Ok (sign : string) (c : Constraint.t) :
  (∃ line, constraint_line sign c = Ok line)
  ↔ (Constraint.constraint_type c = "FOREIGN KEY"
     → is_Some (Constraint.referenced_columns c)).
Proof.
  unfold constraint_line. case_bool_decide as Hfk.
  - destruct (Constraint.referenced_columns c) as [rc|]; split; eauto.
    + intros [line [=]].
    + intros H. by destruct (H Hfk).
  - split; [done|eauto].
Qed.

Lemma constraint_line_Raise (sign : string) (c : Constraint.t) (e : exn) :
  constraint_line sign c = Raise e →
  e = TypeError ∧ Constraint.constraint_type c = "FOREIGN KEY"
  ∧ Constraint.referenced_columns c = None.
Proof.
  unfold constraint_line. case_bool_decide as Hfk; [|done].
  destruct (Constraint.referenced_columns c); [done|]. by intros [= <-].
Qed.

Lemma constraint_block_Raise (heading sign : string)
    (d : gmap (string * list string) Constraint.t)
    (keys : gset (string * list string)) (e : exn) :
  keys ⊆ dom d →
  constraint_block heading sign d keys = Raise e →
  e = TypeError
  ∧ ∃ k c, k ∈ keys ∧ d !! k = Some c
           ∧ Constraint.constraint_type c = "FOREIGN KEY"
           ∧ Constraint.referenced_columns c = None.
Proof.
  intros Hsub. unfold constraint_block. case_bool_decide; [|done].
  destruct (for_each _ _) as [ls|e'] eqn:E; simpl; [done|]. intros [= ->].
  apply for_each_Raise in E as (k & Hk%elem_of_sorted_keys & Hf).
  assert (k ∈ dom d) as [c Hc]%elem_of_dom by by apply Hsub.
  unfold py_getitem in Hf. rewrite Hc in Hf. simpl in Hf.
  apply constraint_line_Raise in Hf as (-> & ? & ?).
  split; [done|]. by exists k, c.
Qed.

Lemma constraint_block_bad (heading sign : string)
    (d : gmap (string * list string) Constraint.t)
    (keys : gset (string * list string)) (k : string * list string)
    (c : Constraint.t) :
  k ∈ keys → d !! k = Some c →
  Constraint.constraint_type c = "FOREIGN KEY" →
  Constraint.referenced_columns c = None →
  ∃ e, constraint_block heading sign d keys = Raise e.
Proof.
  intros Hk Hc Hfk Hnone.
  destruct (constraint_block heading sign d keys) as [ls|e] eqn:E; [|eauto].
  eapply constraint_block_elem in E as (c' & line & rest & Hc' & Hl & _);
    [|done].
  rewrite Hc in Hc'. injection Hc' as <-.
  assert (is_Some (Constraint.referenced_columns c)) as [? Hs].
  { apply (constraint_line_Ok sign c); eauto. }
  congruence.
Qed.

Lemma compare_table_Raise_inv (table1 table2 : Table.t) (e : exn) :
  compare_table table1 table2 = Raise e →
  e = TypeError ∧ ∃ k c,
    ((k ∈ missing_constraints table1 table2
      ∧ constraints_by_key (Table.constraints table1) !! k = Some c)
     ∨ (k ∈ extra_constraints table1 table2
        ∧ constraints_by_key (Table.constraints table2) !! k = Some c))
    ∧ Constraint.constraint_type c = "FOREIGN KEY"
    ∧ Constraint.referenced_columns c = None.
Proof.
  unfold compare_table.
  destruct (compare_columns_total table1 table2) as (cd & ->). simpl.
  unfold compare_constraints.
  destruct (removed_constraints_block table1 table2) as [rm|e1] eqn:E1; simpl.
  - destruct (added_constraints_block table1 table2) as [ad|e2] eqn:E2;
      simpl; [done|]. intros [= ->].
    apply constraint_block_Raise in E2 as (-> & k & c & ? & ? & ? & ?).
    + split; [done|]. exists k, c. eauto.
    + unfold extra_constraints. by intros x [? _]%elem_of_difference.
  - intros [= ->].
    apply constraint_block_Raise in E1 as (-> & k & c & ? & ? & ? & ?).
    + split; [done|]. exists k, c. eauto.
    + unfold missing_constraints. by intros x [? _]%elem_of_difference.
Qed.

(** X3: The only exception [compare] can raise on two tables is the
    [TypeError] of [', '.join(None)], and it raises it exactly when a
    constraint it has to report as removed or added is a FOREIGN KEY
    without referenced columns. *)
Theorem compare_table_raises (table1 table2 : Table.t) :
  (∀ e, compare_table table1 table2 = Raise e → e = TypeError)
  ∧ ((∃ e, compare_table table1 table2 = Raise e) ↔
     ∃ k c,
       ((k ∈ missing_constraints table1 table2
         ∧ constraints_by_key (Table.constraints table1) !! k = Some c)
        ∨ (k ∈ extra_constraints table1 table2
           ∧ constraints_by_key (Table.constraints table2) !! k = Some c))
       ∧ Constraint.constraint_type c = "FOREIGN KEY"
       ∧ Constraint.referenced_columns c = None).
Proof.
  split; [intros e He; by destruct (compare_table_Raise_inv _ _ e He)|]. split.
  - intros [e He]. by destruct (compare_table_Raise_inv _ _ e He).
  - intros (k & c & Hk & Hfk & Hnone). unfold compare_table.
    destruct (compare_columns_total table1 table2) as (cd & ->). simpl.
    unfold compare_constraints.
    destruct Hk as [[Hk Hc]|[Hk Hc]].
    + destruct (constraint_block_bad "  Contraintes supprimées:" "-" _ _ k c
                  Hk Hc Hfk Hnone) as (e & He).
      unfold removed_constraints_block. rewrite He. simpl. eauto.
    + destruct (constraint_block_bad "  Contraintes ajoutées:" "+" _ _ k c
                  Hk Hc Hfk Hnone) as (e & He).
      unfold added_constraints_block. rewrite He.
      destruct (removed_constraints_block table1 table2); simpl; eauto.
Qed.

Lemma compare_table_total (table1 table2 : Table.t) :
  Forall references_iff_foreign_key (Table.constraints table1) →
  Forall references_iff_foreign_key (Table.constraints table2) →
  ∃ table_diff, compare_table table1 table2 = Ok table_diff.
Proof.
  intros H1 H2.
  destruct (compare_table table1 table2) as [td|e] eqn:E; [eauto|].
  apply compare_table_Raise_inv in E as (_ & k & c & Hk & Hfk & Hnone).
  assert (references_iff_foreign_key c) as [_ Hc].
  { destruct Hk as [[_ Hc]|[_ Hc]];
      apply constraints_by_key_lookup in Hc as [Hc _];
      [rewrite Forall_forall in H1; by apply H1
      |rewrite Forall_forall in H2; by apply H2]. }
  apply Hc in Hfk as [? Hs]. congruence.
Qed.

Lemma report_lines_total (A B : gmap string Table.t) :
  map_Forall (fun _ t => Forall references_iff_foreign_key (Table.constraints t))
    A →
  map_Forall (fun _ t => Forall references_iff_foreign_key (Table.constraints t))
    B →
  ∃ ls, report_lines A B = Ok ls.
Proof.
  intros HA HB. unfold report_lines.
  destruct (for_each_total (common_table_block A B) (sorted (dom A ∩ dom B)))
    as (blocks & ->); [|simpl; eauto].
  intros T [[t1 H1]%elem_of_dom [t2 H2]%elem_of_dom]
           %elem_of_sorted%elem_of_intersection.
  unfold common_table_block, py_getitem. rewrite H1, H2. simpl.
  destruct (compare_table_total t1 t2) as (td & ->);
    [exact (HA T t1 H1)|exact (HB T t2 H2)|]. simpl. eauto.
Qed.

(** X2: Comparing two existing text files never raises: whatever the two
    texts, both are parsed and a report comes out. *)
Theorem compare_files_never_raises (fs : gmap string node)
    (file1 file2 content1 content2 : string) :
  fs !! file1 = Some (File content1) →
  fs !! file2 = Some (File content2) →
  ∃ report, SQLDiff.init fs file1 file2 ≫= SQLDiff.compare = Ok report.
Proof.
  intros H1 H2. unfold SQLDiff.init.
  rewrite (init_File _ _ _ H1), (init_File _ _ _ H2).
  destruct (parse_content_total content1) as (A & HA).
  destruct (parse_content_total content2) as (B & HB).
  rewrite HA, HB. simpl. unfold SQLDiff.compare, SQLDiff.compare_tables. simpl.
  destruct (report_lines_total A B) as (ls & ->); [| |simpl; eauto].
  - apply (parse_tables_references _ _ _ HA), map_Forall_empty.
  - apply (parse_tables_references _ _ _ HB), map_Forall_empty.
Qed.

Lemma compare_files_never_raises_witness :
  ∃ report,
    SQLDiff.init {[ "a.sql" := File (orders_dump "fk_1");
                    "b.sql" := File no_engine_dump ]} "a.sql" "b.sql"
      ≫= SQLDiff.compare = Ok report.
Proof.
  apply (compare_files_never_raises _ "a.sql" "b.sql" (orders_dump "fk_1")
           no_engine_dump); reflexivity.
Defined.

(** X1: The parser fails on the file only, never on its text: a missing path
    gives [FileNotFoundError], a directory [IsADirectoryError], and any
    text file a parser holding the tables of the text. *)
Theorem init_outcomes (fs : gmap string node) (path : string) :
  match fs !! path with
  | None =>
      MySQLDumpParser.init fs path
      = Raise (FileNotFoundError ("Le fichier " +:+ path +:+ " n'existe pas."))
  | Some Directory =>
      MySQLDumpParser.init fs path = Raise (IsADirectoryError path)
  | Some (File content) =>
      ∃ tables, parse_content content = Ok tables
                ∧ MySQLDumpParser.init fs path
                  = Ok (MySQLDumpParser.mk path tables)
  end.
Proof.
  destruct (fs !! path) as [[content|]|] eqn:E.
  - rewrite (init_File _ _ _ E).
    destruct (parse_content_total content) as (tables & ->). by exists tables.
  - unfold MySQLDumpParser.init, MySQLDumpParser.parse. simpl. by rewrite E.
  - unfold MySQLDumpParser.init, MySQLDumpParser.parse. simpl. by rewrite E.
Qed.

Example compare_table_TypeError :
  compare_table
    (Table.mk "t" ∅ [Constraint.mk "fk" "FOREIGN KEY" ["a"] None None] None None)
    (Table.mk "t" ∅ [] None None)
  = Raise TypeError.
Proof. vm_compute. reflexivity. Qed.

(** ** When the differ reports nothing *)

Lemma concat_eq_nil {A} (ls : list (list A)) :
  concat ls = [] ↔ ∀ l, l ∈ ls → l = [].
Proof.
  induction ls as [|l ls IH]; simpl.
  - split; [by intros _ l ?%elem_of_nil|done].
  - split.
    + intros [-> Hls]%app_eq_nil l' [->|?]%elem_of_cons; [done|].
      by apply IH.
    + intros H. rewrite (H l) by by left. simpl. apply IH.
      intros l' ?. apply H. by right.
Qed.

Lemma for_each_elem_inv {A B} (f : A → result B) (l : list A) (ys : list B)
    (y : B) :
  for_each f l = Ok ys → y ∈ ys → ∃ x, x ∈ l ∧ f x = Ok y.
Proof.
  revert ys. induction l as [|x l IH]; intros ys; simpl.
  - intros [= <-] ?%elem_of_nil. done.
  - intros (y' & Hy' & (ys' & Hys' & [= <-])%bind_Ok)%bind_Ok
           [->|Hin]%elem_of_cons.
    + exists x. split; [by left|done].
    + destruct (IH ys' Hys' Hin) as (x' & ? & ?). exists x'.
      split; [by right|done].
Qed.

Lemma difference_both_empty `{Countable K} (X Y : gset K) :
  X ∖ Y = ∅ → Y ∖ X = ∅ → X = Y.
Proof.
  intros H1 H2. apply set_eq. intros x. split; intros Hx.
  - destruct (decide (x ∈ Y)) as [|Hn]; [done|].
    assert (x ∈ X ∖ Y) as Hd by by apply elem_of_difference.
    rewrite H1 in Hd. by apply not_elem_of_empty in Hd.
  - destruct (decide (x ∈ X)) as [|Hn]; [done|].
    assert (x ∈ Y ∖ X) as Hd by by apply elem_of_difference.
    rewrite H2 in Hd. by apply not_elem_of_empty in Hd.
Qed.

Lemma compare_column_nil (col_name : string) (c1 c2 : Column.t) :
  compare_column col_name c1 c2 = [] ↔ c1 = c2.
Proof.
  unfold compare_column. case_bool_decide as H; [|done].
  split; [done|]. intros ->. done.
Qed.

Lemma compare_columns_nil (table1 table2 : Table.t) :
  compare_columns table1 table2 = Ok []
  ↔ Table.columns table1 = Table.columns table2.
Proof.
  split.
  - unfold compare_columns.
    intros (added & Hadded & (modified & Hmod & [= Hnil])%bind_Ok)%bind_Ok.
    apply app_eq_nil in Hnil as [Hrm [-> Hcat]%app_eq_nil].
    assert (dom (Table.columns table1) ∖ dom (Table.columns table2) = ∅) as H12.
    { by case_bool_decide as Hne. }
    assert (dom (Table.columns table2) ∖ dom (Table.columns table1) = ∅) as H21.
    { destruct (decide (dom (Table.columns table2)
                          ∖ dom (Table.columns table1) = ∅)) as [|Hne]; [done|].
      rewrite bool_decide_true in Hadded by done.
      by apply bind_Ok in Hadded as (? & _ & [=]). }
    pose proof (difference_both_empty _ _ H12 H21) as Hdom.
    apply map_eq. intros k.
    destruct (Table.columns table1 !! k) as [c1|] eqn:E1.
    + assert (k ∈ dom (Table.columns table2)) as [c2 E2]%elem_of_dom.
      { rewrite <- Hdom. apply elem_of_dom. eauto. }
      rewrite E2. f_equal.
      eapply (for_each_elem _ _ _ k) in Hmod as (block & Hblock & Hin).
      2:{ apply elem_of_sorted, elem_of_intersection.
          split; apply elem_of_dom; eauto. }
      unfold py_getitem in Hblock. rewrite E1, E2 in Hblock. simpl in Hblock.
      injection Hblock as <-.
      rewrite concat_eq_nil in Hcat. apply Hcat in Hin.
      by apply compare_column_nil in Hin.
    + symmetry. apply not_elem_of_dom. rewrite <- Hdom.
      by apply not_elem_of_dom.
  - intros Heq. unfold compare_columns. rewrite Heq.
    exact (compare_columns_same table2).
Qed.

Lemma constraint_block_nil (heading sign : string)
    (d : gmap (string * list string) Constraint.t)
    (keys : gset (string * list string)) :
  constraint_block heading sign d keys = Ok [] ↔ keys = ∅.
Proof.
  split; [|intros ->; apply constraint_block_empty].
  unfold constraint_block. case_bool_decide as Hne; [|done].
  by intros (? & _ & [=])%bind_Ok.
Qed.

Lemma compare_constraints_nil (table1 table2 : Table.t) :
  compare_constraints table1 table2 = Ok []
  ↔ dom (constraints_by_key (Table.constraints table1))
    = dom (constraints_by_key (Table.constraints table2)).
Proof.
  unfold compare_constraints, removed_constraints_block,
    added_constraints_block, missing_constraints, extra_constraints. split.
  - intros (rm & Hrm & (ad & Had & [= Hnil])%bind_Ok)%bind_Ok.
    apply app_eq_nil in Hnil as [-> ->].
    apply constraint_block_nil in Hrm, Had.
    by apply difference_both_empty.
  - intros ->. rewrite difference_diag_L. by rewrite !constraint_block_empty.
Qed.

Lemma compare_table_nil (table1 table2 : Table.t) :
  compare_table table1 table2 = Ok [] ↔ same_structure table1 table2.
Proof.
  unfold compare_table, same_structure. split.
  - intros (cd & Hcd & (kd & Hkd & [= Hnil])%bind_Ok)%bind_Ok.
    apply app_eq_nil in Hnil as [Hcs [Hco [-> ->]%app_eq_nil]%app_eq_nil].
    apply compare_columns_nil in Hcd. apply compare_constraints_nil in Hkd.
    repeat split; try done.
    + destruct (decide (Table.charset table1 = Table.charset table2))
        as [|Hne]; [done|]. by rewrite bool_decide_true in Hcs.
    + destruct (decide (Table.collation table1 = Table.collation table2))
        as [|Hne]; [done|]. by rewrite bool_decide_true in Hco.
  - intros (Hcs & Hco & Hcols & Hkeys).
    apply compare_columns_nil in Hcols. apply compare_constraints_nil in Hkeys.
    rewrite Hcols, Hkeys. simpl.
    by rewrite !bool_decide_false by (intros Hne; by apply Hne).
Qed.

Lemma tables_block_nil (heading : string) (X : gset string) :
  tables_block heading X = [] ↔ X = ∅.
Proof.
  unfold tables_block. by case_bool_decide as Hne.
Qed.

Lemma report_lines_nil (A B : gmap string Table.t) :
  report_lines A B = Ok [] ↔
    dom A = dom B
    ∧ ∀ T table1 table2, A !! T = Some table1 → B !! T = Some table2 →
        same_structure table1 table2.
Proof.
  unfold report_lines. split.
  - intros (blocks & Hblocks & [= Hnil])%bind_Ok.
    apply app_eq_nil in Hnil as [Hm [He Hcat]%app_eq_nil].
    apply tables_block_nil in Hm, He. split.
    { by apply difference_both_empty. }
    intros T t1 t2 H1 H2.
    eapply (for_each_elem _ _ _ T) in Hblocks as (block & Hblock & Hin).
    2:{ apply elem_of_sorted, elem_of_intersection.
        split; apply elem_of_dom; eauto. }
    rewrite concat_eq_nil in Hcat. apply Hcat in Hin. subst block.
    unfold common_table_block, py_getitem in Hblock. rewrite H1, H2 in Hblock.
    simpl in Hblock. apply bind_Ok in Hblock as (td & Htd & [= Hb]).
    apply compare_table_nil. case_bool_decide as Hne; [done|]. by subst td.
  - intros [Hdom Hsame]. rewrite (for_each_Ok _ (fun _ => [])).
    + simpl. rewrite concat_nil_fmap.
      unfold missing_tables_block, extra_tables_block, missing_tables,
        extra_tables. rewrite Hdom, difference_diag_L.
      by rewrite (proj2 (tables_block_nil _ ∅)) by done.
    + intros T [[t1 H1]%elem_of_dom [t2 H2]%elem_of_dom]
               %elem_of_sorted%elem_of_intersection.
      unfold common_table_block, py_getitem. rewrite H1, H2. simpl.
      rewrite (proj2 (compare_table_nil t1 t2)) by by eapply Hsame.
      simpl. done.
Qed.

Lemma join_head (sep : string) (ls : list string) (a : ascii) (s : string) :
  head ls = Some (String a s) → ∃ s', Str.join sep ls = String a s'.
Proof.
  destruct ls as [|l [|l' ls]]; simpl; [done| |]; intros [= ->]; eauto.
Qed.

Lemma head_app_Some {A} (l1 l2 : list A) (x : A) :
  head (l1 ++ l2) = Some x → head l1 = Some x ∨ (l1 = [] ∧ head l2 = Some x).
Proof. destruct l1; simpl; eauto. Qed.

Lemma tables_block_head (heading : string) (X : gset string) (l : string) :
  head (tables_block heading X) = Some l → l = heading.
Proof. unfold tables_block. case_bool_decide; simpl; [|done]. by intros [= <-]. Qed.

Lemma report_lines_head (A B : gmap string Table.t) (ls : list string)
    (l : string) :
  report_lines A B = Ok ls → head ls = Some l →
  ∃ s, l = String "T" s ∨ l = String "D" s.
Proof.
  unfold report_lines. intros (blocks & Hblocks & [= <-])%bind_Ok Hhead.
  apply head_app_Some in Hhead as [Hhead|[_ Hhead]].
  { apply tables_block_head in Hhead as ->. eexists. left. reflexivity. }
  apply head_app_Some in Hhead as [Hhead|[_ Hhead]].
  { apply tables_block_head in Hhead as ->. eexists. left. reflexivity. }
  assert (∀ block, block ∈ blocks →
            ∀ l, head block = Some l → ∃ s, l = String "D" s) as Hall.
  { intros block (T & _ & Hb)%(for_each_elem_inv _ _ _ _ Hblocks) l' Hl'.
    unfold common_table_block in Hb.
    apply bind_Ok in Hb as (t1 & _ & Hb). apply bind_Ok in Hb as (t2 & _ & Hb).
    apply bind_Ok in Hb as (td & _ & [= <-]).
    case_bool_decide; [|done]. injection Hl' as <-. eexists. reflexivity. }
  clear Hblocks. induction blocks as [|block blocks IH]; [done|].
  simpl in Hhead. apply head_app_Some in Hhead as [Hhead|[_ Hhead]].
  - assert (block ∈ block :: blocks) as Hin by by left.
    destruct (Hall block Hin l Hhead) as (s & ->). eauto.
  - apply IH; [done|]. intros b Hb. apply Hall. by right.
Qed.

(** X4: The report is the "no difference" sentence exactly when the two
    schemas have the same table names and, for each of them, the same
    charset, the same collation, the same columns with the same five
    fields, and the same constraint keys (constraint_type, columns);
    constraint names and referenced tables and columns play no part. *)
Theorem no_difference_iff (A B : gmap string Table.t) :
  SQLDiff.compare_tables A B = Ok NO_DIFFERENCE ↔
    dom A = dom B
    ∧ ∀ T table1 table2, A !! T = Some table1 → B !! T = Some table2 →
        Table.charset table1 = Table.charset table2
        ∧ Table.collation table1 = Table.collation table2
        ∧ Table.columns table1 = Table.columns table2
        ∧ dom (constraints_by_key (Table.constraints table1))
          = dom (constraints_by_key (Table.constraints table2)).
Proof.
  rewrite <- (report_lines_nil A B). unfold SQLDiff.compare_tables. split.
  - intros (ls & Hls & [= Hrep])%bind_Ok.
    destruct ls as [|l ls]; [done|]. exfalso.
    rewrite bool_decide_true in Hrep by done.
    destruct (report_lines_head A B (l :: ls) l Hls eq_refl) as (s & [->| ->]).
    + destruct (join_head Str.nl (String "T" s :: ls) "T" s eq_refl)
        as (s' & Hs'). by rewrite Hs' in Hrep.
    + destruct (join_head Str.nl (String "D" s :: ls) "D" s eq_refl)
        as (s' & Hs'). by rewrite Hs' in Hrep.
  - intros ->. done.
Qed.

(** ** Equal tables, modified columns *)

(** X6: Two tables equal by [Table.__eq__] give no difference in [compare]:
    equality of the tables is the finer of the two comparisons. *)
Theorem equal_tables_no_difference (table1 table2 : Table.t) :
  Table.__eq__ table1 table2 = true → compare_table table1 table2 = Ok [].
Proof.
  unfold Table.__eq__. rewrite !andb_true_iff, !bool_decide_eq_true.
  intros ((((_ & Hcols) & Hset) & Hcs) & Hco).
  apply compare_table_nil. repeat split; try done.
  apply set_eq. intros k. rewrite !constraints_by_key_dom.
  rewrite set_eq in Hset. setoid_rewrite elem_of_list_to_set in Hset.
  split; intros (c & Hc & Hk); exists c; (split; [by apply Hset|done]).
Qed.

Lemma equal_tables_no_difference_witness :
  compare_table
    (Table.mk "orders" {[ "user_id" := user_id_column ]}
       [fk_users "fk_1"; fk_users "fk_2"] None None)
    (Table.mk "orders" {[ "user_id" := user_id_column ]}
       [fk_users "fk_2"; fk_users "fk_1"; fk_users "fk_2"] None None)
  = Ok [].
Proof. apply equal_tables_no_difference. vm_compute. reflexivity. Defined.

Lemma compare_column_heading (col_name k : string) (c1 c2 : Column.t) :
  ("  Colonne modifiée: " +:+ k) ∈ compare_column col_name c1 c2 →
  col_name = k ∧ c1 ≠ c2.
Proof.
  unfold compare_column. case_bool_decide as Hne; [|by intros ?%elem_of_nil].
  intros [E|Hin]%elem_of_cons.
  - apply (inj (String.app _)) in E. by subst.
  - exfalso. repeat case_bool_decide; simpl in Hin;
      repeat (apply elem_of_cons in Hin as [E|Hin];
              [vm_compute in E; discriminate E|]);
      by apply elem_of_nil in Hin.
Qed.

(** X5: A column found in both tables is reported as modified exactly when
    its two definitions differ in one of the five fields; columns and
    lookups never make [compare] raise. *)
Theorem column_modified_iff (table1 table2 : Table.t) (k : string)
    (c1 c2 : Column.t) :
  Table.columns table1 !! k = Some c1 →
  Table.columns table2 !! k = Some c2 →
  ∃ ls, compare_columns table1 table2 = Ok ls
        ∧ (("  Colonne modifiée: " +:+ k) ∈ ls ↔ c1 ≠ c2).
Proof.
  intros H1 H2. destruct (compare_columns_total table1 table2) as (ls & Hls).
  exists ls. split; [done|]. unfold compare_columns in Hls.
  apply bind_Ok in Hls as (added & Hadded & Hls).
  apply bind_Ok in Hls as (modified & Hmod & [= <-]).
  assert (compare_column k c1 c2 ∈ modified) as Hk.
  { eapply (for_each_elem _ _ _ k) in Hmod as (block & Hblock & Hin).
    2:{ apply elem_of_sorted, elem_of_intersection.
        split; apply elem_of_dom; eauto. }
    unfold py_getitem in Hblock. rewrite H1, H2 in Hblock.
    by injection Hblock as <-. }
  rewrite !elem_of_app, elem_of_concat. split.
  - intros [Hrm|[Had|(block & Hblock & Hin)]].
    + exfalso. case_bool_decide; [|by apply elem_of_nil in Hrm].
      apply elem_of_cons in Hrm as [E|Hrm]; [vm_compute in E; discriminate E|].
      apply list_elem_of_fmap in Hrm as (col & E & _).
      vm_compute in E. discriminate E.
    + exfalso.
      destruct (decide (dom (Table.columns table2)
                          ∖ dom (Table.columns table1) = ∅)) as [He|Hne].
      * rewrite bool_decide_false in Hadded by (intros Hn; by apply Hn).
        injection Hadded as <-. by apply elem_of_nil in Had.
      * rewrite bool_decide_true in Hadded by done.
        apply bind_Ok in Hadded as (lines & Hlines & [= <-]).
        apply elem_of_cons in Had as [E|Had];
          [vm_compute in E; discriminate E|].
        eapply for_each_elem_inv in Hlines as (col & _ & Hcol); [|done].
        by apply bind_Ok in Hcol as (c & _ & [= E]).
    + eapply for_each_elem_inv in Hmod as (k' & Hk' & Hb); [|done].
      apply bind_Ok in Hb as (c1' & Hc1' & Hb).
      apply bind_Ok in Hb as (c2' & Hc2' & [= <-]).
      apply compare_column_heading in Hin as [-> Hne].
      unfold py_getitem in Hc1', Hc2'. rewrite H1 in Hc1'. rewrite H2 in Hc2'.
      by simplify_eq.
  - intros Hne. right; right. exists (compare_column k c1 c2).
    split; [done|]. unfold compare_column. rewrite bool_decide_true by done.
    by left.
Qed.

Lemma column_modified_iff_witness :
  ∃ ls,
    compare_columns
      (Table.mk "t" {[ "id" := id_column ]} [] None None)
      (Table.mk "t" {[ "id" := Column.mk "id" "bigint" false None "" ]} []
         None None) = Ok ls
    ∧ ("  Colonne modifiée: id" ∈ ls
       ↔ id_column ≠ Column.mk "id" "bigint" false None "").
Proof.
  apply (column_modified_iff
           (Table.mk "t" {[ "id" := id_column ]} [] None None)
           (Table.mk "t" {[ "id" := Column.mk "id" "bigint" false None "" ]} []
              None None) "id"); reflexivity.
Defined.

(** ** What the parser keeps *)

Lemma search_sound (ic : bool) (r : Re.regex) (s : string) (m : Re.t) :
  Re.search ic r s = Some m → ∃ pre s0, s = pre +:+ s0 ∧ Re.match_ ic r s0 = Some m.
Proof.
  induction s as [|a s IH]; simpl.
  - destruct (Re.match_ ic r "") eqn:E; [|done]. intros [= <-].
    by exists "", "".
  - destruct (Re.match_ ic r (String a s)) eqn:E.
    + intros [= <-]. by exists "", (String a s).
    + intros (pre & s0 & -> & ?)%IH. by exists (String a pre), s0.
Qed.

Lemma all_chars_not_contains (a : ascii) (w : string) :
  all_chars (Re.cmatch (Re.CNot a)) w = true →
  Str.contains (String a "") w = false.
Proof.
  induction w as [|b w IH]; [done|]. simpl.
  intros [Hb Hw]%andb_true_iff.
  change (Str.contains (String a "") (String b w))
    with (Str.startswith (String a "") (String b w)
          || Str.contains (String a "") w).
  rewrite IH by done.
  change (Str.startswith (String a "") (String b w))
    with (if decide (a = b) then true else false).
  destruct (decide (a = b)) as [->|]; [|done].
  apply negb_true_iff, bool_decide_eq_false in Hb. done.
Qed.

Lemma backquoted_name (s : string) (caps : list string) (s' : string)
    (caps' : list string) :
  matches false backquoted s caps s' caps' →
  ∃ name, caps' = caps ++ [name] ∧ well_formed_name name
          ∧ s = "`" +:+ name +:+ "`" +:+ s'.
Proof.
  unfold backquoted. cbn [matches].
  intros (s1 & c1 & [H1 ->] & s2 & c2 & (c3 & [(w & Hw & -> & Hall) ->] & ->)
          & [H2 ->]).
  apply lit_exact in H1, H2. subst. rewrite consumed_app.
  exists w. split; [done|]. split; [|done].
  split; [done|]. by apply all_chars_not_contains.
Qed.

Ltac break_matches H :=
  cbn [matches] in H;
  repeat match goal with
         | H : ∃ _, _ |- _ => destruct H as [? H]
         | H : _ ∧ _ |- _ => destruct H as [? ?]
         end;
  repeat match goal with
         | H : Re.lit false _ _ = Some _ |- _ => apply lit_exact in H
         end.

Lemma table_name_well_formed (s : string) (m : Re.t) :
  Re.match_ false create_table_pattern s = Some m →
  well_formed_name (Re.group m 1).
Proof.
  intros H%match_sound. unfold create_table_pattern in H. break_matches H.
  match goal with
  | Hb : matches false backquoted _ _ _ _ |- _ =>
      apply backquoted_name in Hb as (name & Hc & Hwf & _)
  end.
  subst. unfold Re.group.
  match goal with Hg : Re.groups m = _ |- _ => rewrite Hg end.
  done.
Qed.

Lemma column_name_well_formed (line : string) (m : Re.t) :
  Re.match_ false column_pattern line = Some m →
  well_formed_name (Re.group m 1).
Proof.
  intros H%match_sound. unfold column_pattern in H. break_matches H.
  match goal with
  | Hb : matches false backquoted _ _ _ _ |- _ =>
      apply backquoted_name in Hb as (name & Hc & Hwf & _)
  end.
  subst. unfold Re.group.
  match goal with Hg : Re.groups m = _ |- _ => rewrite Hg end.
  done.
Qed.

Lemma default_not_empty (attributes : string) (m : Re.t) :
  Re.search false default_pattern attributes = Some m → Re.group m 1 ≠ "".
Proof.
  intros (pre & s0 & _ & H%match_sound)%search_sound.
  unfold default_pattern in H. break_matches H.
  subst. unfold Re.group.
  match goal with Hg : Re.groups m = _ |- _ => rewrite Hg end.
  simpl. by rewrite consumed_app.
Qed.

Lemma lstrip_by_head (f : ascii → bool) (s : string) (a : ascii) (t : string) :
  Str.lstrip_by f s = String a t → f a = false.
Proof.
  induction s as [|b s IH]; simpl; [done|].
  destruct (f b) eqn:E; [done|]. by intros [= <- _].
Qed.

Lemma type_and_attributes_type (rest_of_line data_type attributes : string) :
  type_and_attributes rest_of_line = Ok (data_type, attributes) →
  data_type ≠ "".
Proof.
  unfold type_and_attributes, Str.split_ws_1.
  destruct (Str.lstrip_by Str.is_space rest_of_line) as [|a t] eqn:E; [done|].
  apply lstrip_by_head in E. simpl. rewrite E.
  destruct (Str.take_word t) as [w r].
  destruct (Str.lstrip_by Str.is_space r); simpl; by intros [= <- _].
Qed.

Lemma app_not_empty (s : string) (a : ascii) (t : string) :
  s +:+ String a t ≠ "".
Proof. by destruct s. Qed.

Lemma parse_column_well_formed (line : string) (c : Column.t) :
  parse_column line = Ok (Some c) → well_formed_column (Column.name c) c.
Proof.
  unfold parse_column. destruct (negb _); [|done].
  destruct (Re.match_ false column_pattern line) as [m|] eqn:Hm; [|done].
  intros ([ty attrs] & Hta & [= <-])%bind_Ok. unfold well_formed_column. simpl.
  split; [done|]. split; [by eapply column_name_well_formed|]. split.
  { destruct (Str.startswith_any _ _).
    - destruct (Re.match_ true enum_pattern (Re.rest m)).
      + injection Hta as <- _. apply app_not_empty.
      + by eapply type_and_attributes_type.
    - by eapply type_and_attributes_type. }
  split; [destruct (Str.contains "AUTO_INCREMENT" attrs); eauto|].
  destruct (Re.search false default_pattern attrs) as [dm|] eqn:Hd; [|done].
  simpl. intros [= E]. by eapply default_not_empty.
Qed.

Lemma column_names_not_nil (text : string) : column_names text ≠ [].
Proof.
  unfold column_names, Str.split.
  destruct (split_go_nonempty "," 0 "" text) as (x & l & ->). done.
Qed.

Lemma parse_constraint_well_formed (line : string) (c : Constraint.t) :
  parse_constraint line = Some c → well_formed_constraint c.
Proof.
  unfold parse_constraint, well_formed_constraint.
  repeat (destruct (Re.match_ _ _ _); [intros [= <-]; simpl|]); [..|done];
    (split; [set_solver|]); (split; [apply column_names_not_nil|done]).
Qed.

Section parse_invariant.
Variable PC : string → Column.t → Prop.
Variable PK : Constraint.t → Prop.
Hypothesis column_ok :
  ∀ line c, parse_column line = Ok (Some c) → PC (Column.name c) c.
Hypothesis constraint_ok : ∀ line c, parse_constraint line = Some c → PK c.

Lemma parse_clause_invariant st (line : string) st' :
  parse_clause st line = Ok st' →
  map_Forall PC st.1 ∧ Forall PK st.2 →
  map_Forall PC st'.1 ∧ Forall PK st'.2.
Proof.
  unfold parse_clause. intros (col & Hcol & H)%bind_Ok [H1 H2].
  destruct col as [c|].
  - injection H as <-. simpl. split; [|done].
    apply map_Forall_insert_2; [by eapply column_ok|done].
  - destruct (parse_constraint _) as [c|] eqn:E; injection H as <-; [|done].
    simpl. split; [done|]. apply Forall_app. split; [done|].
    apply Forall_singleton. by eapply constraint_ok.
Qed.

Lemma parse_clauses_invariant (cleaned_lines : list string) st st' :
  parse_clauses st cleaned_lines = Ok st' →
  map_Forall PC st.1 ∧ Forall PK st.2 →
  map_Forall PC st'.1 ∧ Forall PK st'.2.
Proof.
  revert st. induction cleaned_lines as [|line ls IH]; intros st; simpl.
  - by intros [= <-].
  - intros (st1 & H1 & H2)%bind_Ok Hst. eapply IH; [done|].
    by eapply parse_clause_invariant.
Qed.

Lemma parse_table_invariant (m : Re.t) (table : Table.t) :
  parse_table m = Ok table →
  map_Forall PC (Table.columns table) ∧ Forall PK (Table.constraints table).
Proof.
  unfold parse_table.
  intros (cl & _ & ([cols cons] & H & [= <-])%bind_Ok)%bind_Ok. simpl.
  apply (parse_clauses_invariant cl (∅, []) (cols, cons) H).
  split; [apply map_Forall_empty|done].
Qed.
End parse_invariant.

Lemma parse_tables_invariant (P : string → Table.t → Prop) (ms : list Re.t)
    (tables tables' : gmap string Table.t) :
  (∀ m table, m ∈ ms → parse_table m = Ok table → P (Table.name table) table) →
  parse_tables tables ms = Ok tables' →
  map_Forall P tables → map_Forall P tables'.
Proof.
  revert tables. induction ms as [|m ms IH]; intros tables Hm; simpl.
  - by intros [= <-].
  - intros (table & Ht & H)%bind_Ok Hall. eapply IH; [|done|].
    + intros m' table' ?. apply Hm. by right.
    + apply map_Forall_insert_2; [|done]. apply (Hm m); [by left|done].
Qed.

(** X7: In the schema of any dump, a table is filed under its own name and a
    column under its own name; these names are not empty and hold no
    backquote; every column has a non-empty type, an extra that is empty
    or AUTO_INCREMENT, and a default that, when there, is not empty. *)
Theorem parsed_names_and_columns (content : string) :
  ∃ tables, parse_content content = Ok tables
    ∧ ∀ T table, tables !! T = Some table →
        Table.name table = T
        ∧ T ≠ "" ∧ Str.contains "`" T = false
        ∧ ∀ k c, Table.columns table !! k = Some c →
            Column.name c = k
            ∧ k ≠ "" ∧ Str.contains "`" k = false
            ∧ Column.data_type c ≠ ""
            ∧ (Column.extra c = "" ∨ Column.extra c = "AUTO_INCREMENT")
            ∧ Column.default c ≠ Some "".
Proof.
  destruct (parse_content_total content) as (tables & Htables).
  exists tables. split; [done|].
  assert (map_Forall
    (fun T table => Table.name table = T ∧ well_formed_name T
                    ∧ map_Forall well_formed_column (Table.columns table))
    tables) as Hinv.
  2:{ intros T table HT. destruct (Hinv T table HT) as (Hn & [? ?] & Hcols).
    split; [done|]. split; [done|]. split; [done|]. intros col c' Hk.
    destruct (Hcols col c' Hk) as (? & [? ?] & ? & ? & ?). done. }
  eapply parse_tables_invariant; [|exact Htables|apply map_Forall_empty].
  intros m table (pre & s0 & _ & Hm)%finditer_go_elem Ht. split; [done|].
  split.
  - rewrite (parse_table_name _ _ Ht). by eapply table_name_well_formed.
  - apply (parse_table_invariant well_formed_column (fun _ => True)
             parse_column_well_formed (fun _ _ _ => I) m table Ht).
Qed.

(** X8: In the schema of any dump every constraint has one of the four kinds
    PRIMARY KEY, UNIQUE, FOREIGN KEY and INDEX, covers at least one
    column, and is named PRIMARY when it is a primary key. *)
Theorem parsed_constraints_shape (content : string) :
  ∃ tables, parse_content content = Ok tables
    ∧ ∀ T table c, tables !! T = Some table → c ∈ Table.constraints table →
        Constraint.constraint_type c
          ∈ ["PRIMARY KEY"; "UNIQUE"; "FOREIGN KEY"; "INDEX"]
        ∧ Constraint.columns c ≠ []
        ∧ (Constraint.constraint_type c = "PRIMARY KEY"
           → Constraint.name c = "PRIMARY").
Proof.
  destruct (parse_content_total content) as (tables & Htables).
  exists tables. split; [done|].
  assert (map_Forall
    (fun _ table => Forall well_formed_constraint (Table.constraints table))
    tables) as Hinv.
  2:{ intros T table c HT Hc. specialize (Hinv T table HT). simpl in Hinv.
      rewrite Forall_forall in Hinv. by apply Hinv. }
  eapply parse_tables_invariant; [|exact Htables|apply map_Forall_empty].
  intros m table _ Ht.
  apply (parse_table_invariant (fun _ _ => True) well_formed_constraint
           (fun _ _ _ => I) parse_constraint_well_formed m table Ht).
Qed.

(** ** Two statements for one table *)

Lemma parse_tables_lookup (ms : list Re.t) (tables tables' : gmap string Table.t)
    (T : string) :
  parse_tables tables ms = Ok tables' →
  tables' !! T
  = match last (filter (fun m => Re.group m 1 = T) ms) with
    | Some m => returned (parse_table m)
    | None => tables !! T
    end.
Proof.
  revert tables. induction ms as [|m ms IH]; intros tables; simpl.
  - by intros [= <-].
  - intros (table & Ht & H)%bind_Ok. rewrite (IH _ H).
    rewrite filter_cons. rewrite (parse_table_name _ _ Ht).
    destruct (decide (Re.group m 1 = T)) as [<-|Hne].
    + rewrite last_cons.
      destruct (last (filter _ ms)); [done|].
      by rewrite lookup_insert_eq, Ht.
    + destruct (last (filter _ ms)); [done|]. by rewrite lookup_insert_ne.
Qed.

(** X9: The schema holds, under each name, the table of the last CREATE TABLE
    statement found for that name, and nothing under a name for which no
    statement is found: a later statement replaces an earlier one. *)
Theorem last_statement_wins (content : string) :
  ∃ tables, parse_content content = Ok tables
    ∧ ∀ T, tables !! T
           = m ← last (filter (fun m => Re.group m 1 = T)
                         (Re.finditer false create_table_pattern content));
             returned (parse_table m).
Proof.
  destruct (parse_content_total content) as (tables & Htables).
  exists tables. split; [done|]. intros T.
  rewrite (parse_tables_lookup _ _ _ T Htables), lookup_empty.
  by destruct (last _).
Qed.

Example last_statement_wins_example :
  Table.columns <$> (tables ← parse_content
                       (one_clause_dump id_clause
                          +:+ one_clause_dump status_clause);
                     py_getitem tables "t")
  = Ok {[ "status" := status_column ]}.
Proof. vm_compute. reflexivity. Qed.

(** ** The segmenter only regroups *)

Lemma rstrip_by_idem (f : ascii → bool) (s : string) :
  Str.rstrip_by f (Str.rstrip_by f s) = Str.rstrip_by f s.
Proof.
  induction s as [|a s IH]; [done|]. simpl.
  destruct (Str.rstrip_by f s) as [|b r] eqn:E.
  - destruct (f a) eqn:Ea; [done|]. simpl. by rewrite Ea.
  - change (Str.rstrip_by f (String a (String b r)))
      with (match Str.rstrip_by f (String b r) with
            | "" => if f a then "" else String a ""
            | r' => String a r'
            end).
    by rewrite IH.
Qed.

Lemma lstrip_rstrip (f : ascii → bool) (s : string) :
  (∀ a t, s = String a t → f a = false) →
  Str.lstrip_by f (Str.rstrip_by f s) = Str.rstrip_by f s.
Proof.
  destruct s as [|a s]; [done|]. intros H. specialize (H a s eq_refl).
  simpl. destruct (Str.rstrip_by f s); rewrite ?H; simpl; by rewrite H.
Qed.

Lemma strip_idem (s : string) : Str.strip (Str.strip s) = Str.strip s.
Proof.
  unfold Str.strip, Str.strip_by.
  rewrite lstrip_rstrip, rstrip_by_idem; [done|].
  intros a t E. by eapply lstrip_by_head.
Qed.

Lemma join_merge (sep a b : string) (xs ys : list string) :
  Str.join sep (xs ++ (a +:+ sep +:+ b) :: ys) = Str.join sep (xs ++ a :: b :: ys).
Proof.
  unfold Str.join. induction xs as [|x xs IH].
  - simpl. destruct ys; [done|]. by rewrite !string_app_assoc.
  - change (String.concat sep ((x :: xs) ++ ?l))
      with (String.concat sep (x :: (xs ++ l))).
    destruct xs as [|x' xs]; simpl in *; by rewrite IH.
Qed.

Lemma clean_lines_join (ls cleaned : list string) (current : string)
    (r : list string) :
  clean_lines ls cleaned current = Ok r →
  Str.join ", " r
  = Str.join ", "
      ((if bool_decide (current = "") then cleaned else cleaned ++ [current])
         ++ filter (fun l => l ≠ "") (Str.strip <$> ls))
  ∧ (Forall (fun l => l ≠ "") cleaned → Forall (fun l => l ≠ "") r).
Proof.
  revert cleaned current. induction ls as [|l ls IH]; intros cleaned current.
  - simpl. intros [= <-]. rewrite app_nil_r. split; [done|].
    case_bool_decide as Hcur; [done|]. intros Hc. apply Forall_app.
    split; [done|]. by apply Forall_singleton.
  - cbn [clean_lines fmap list_fmap]. rewrite filter_cons.
    destruct (decide (Str.strip l = "")) as [He|Hne].
    + rewrite bool_decide_true by done.
      rewrite decide_False by (intros Hn; by apply Hn). apply IH.
    + rewrite bool_decide_false by done. rewrite decide_True by done.
      set (cur' := if bool_decide (current = "") then Str.strip l
                   else current +:+ ", " +:+ Str.strip l).
      assert (cur' ≠ "") as Hcur'.
      { subst cur'. case_bool_decide; [done|]. by destruct current. }
      assert (∀ r, Str.join ", " r
                   = Str.join ", " ((cleaned ++ [cur'])
                       ++ filter (fun l => l ≠ "") (Str.strip <$> ls)) →
                Str.join ", " r
                = Str.join ", "
                    ((if bool_decide (current = "") then cleaned
                      else cleaned ++ [current])
                       ++ Str.strip l
                          :: filter (fun l => l ≠ "") (Str.strip <$> ls)))
        as Hstep.
      { intros r' ->. subst cur'. case_bool_decide.
        - by rewrite <- app_assoc.
        - rewrite <- !app_assoc. simpl. apply join_merge. }
      intros (complete & _ & H)%bind_Ok. destruct complete.
      * apply IH in H as [H1 H2]. split.
        -- apply Hstep. by rewrite H1.
        -- intros Hc. apply H2, Forall_app. split; [done|].
           by apply Forall_singleton.
      * apply IH in H as [H1 H2]. rewrite bool_decide_false in H1 by done.
        split; [by apply Hstep|done].
Qed.

(** X10: The segmenter neither drops nor reorders text: it raises nothing, its
    fragments are not empty, and joined by ", " they give the non-empty
    stripped pieces of the body (cut at comma and line feed) joined by
    ", ".  It only decides where a fragment ends. *)
Theorem segment_regroups (table_definition : string) :
  ∃ cleaned_lines, segment table_definition = Ok cleaned_lines
    ∧ Str.join ", " cleaned_lines
      = Str.join ", "
          (filter (fun l => l ≠ "")
             (Str.strip <$> Str.split ("," +:+ Str.nl) table_definition))
    ∧ Forall (fun l => l ≠ "") cleaned_lines.
Proof.
  unfold segment.
  destruct (clean_lines_total
              (Str.strip <$> Str.split ("," +:+ Str.nl) table_definition) [] "")
    as (r & Hr).
  exists r. split; [done|]. apply clean_lines_join in Hr as [H1 H2].
  split; [|by apply H2]. rewrite H1. simpl. f_equal. f_equal.
  rewrite <- list_fmap_compose. apply list_fmap_ext. intros _ s _. simpl.
  apply strip_idem.
Qed.

(** ** Clauses the parser passes over *)

Lemma lit_None (p s : string) :
  Str.startswith p s = false → Re.lit false p s = None.
Proof. rewrite startswith_lit. by destruct (Re.lit false p s). Qed.

(** X11: A clause that, once stripped, begins neither with a backquote nor with
    PRIMARY KEY, UNIQUE KEY, KEY or CONSTRAINT changes nothing: a FOREIGN
    KEY without CONSTRAINT, a FULLTEXT or SPATIAL KEY, a CHECK are passed
    over without an error. *)
Theorem unrecognised_clause_ignored
    (st : gmap string Column.t * list Constraint.t) (line : string) :
  Str.startswith "`" (Str.strip line) = false →
  Str.startswith_any ["PRIMARY KEY"; "UNIQUE KEY"; "KEY"; "CONSTRAINT"]
    (Str.strip line) = false →
  parse_clause st line = Ok st.
Proof.
  intros Hbq Hkw. unfold Str.startswith_any in Hkw. simpl in Hkw.
  apply orb_false_iff in Hkw as [Hpk Hkw].
  apply orb_false_iff in Hkw as [Huk Hkw].
  apply orb_false_iff in Hkw as [Hk Hkw].
  apply orb_false_iff in Hkw as [Hc _].
  apply lit_None in Hbq, Hpk, Huk, Hk, Hc.
  unfold parse_clause.
  assert (parse_column (Str.strip line) = Ok None) as ->.
  { unfold parse_column. destruct (negb _); [|done].
    unfold Re.match_, column_pattern, backquoted. cbn [Re.run].
    by rewrite Hbq. }
  simpl. unfold parse_constraint, Re.match_, pk_pattern, unique_pattern,
    fk_pattern, idx_pattern. cbn [Re.run].
  by rewrite Hpk, Huk, Hk, Hc.
Qed.

Lemma unrecognised_clause_ignored_witness :
  parse_clause ({[ "a" := user_id_column ]}, [])
    "  FOREIGN KEY (`a`) REFERENCES `b` (`id`)"
    = Ok ({[ "a" := user_id_column ]}, [])
  ∧ parse_clause ({[ "a" := user_id_column ]}, [])
      "FULLTEXT KEY `ft` (`a`)"
    = Ok ({[ "a" := user_id_column ]}, []).
Proof.
  split; apply unrecognised_clause_ignored; vm_compute; reflexivity.
Defined.

(** * Properties of the extractor *)

(** ** Substrings, lines *)

Lemma startswith_exact (p s : string) :
  Str.startswith p s = true ↔ ∃ q, s = p +:+ q.
Proof.
  rewrite startswith_lit. split.
  - destruct (Re.lit false p s) as [q|] eqn:E; [|done]. intros _.
    exists q. by apply lit_exact.
  - intros (q & Hq%lit_exact). by rewrite Hq.
Qed.

Lemma contains_exact (sub s : string) :
  Str.contains sub s = true ↔ ∃ p q, s = p +:+ sub +:+ q.
Proof.
  split; [|intros (p & q & ->); apply contains_app].
  induction s as [|a s IH].
  - change (Str.contains sub "") with (Str.startswith sub "" || false).
    rewrite orb_false_r. intros (q & ->)%startswith_exact.
    by exists "", q.
  - change (Str.contains sub (String a s))
      with (Str.startswith sub (String a s) || Str.contains sub s).
    intros [(q & ->)%startswith_exact|(p & q & ->)%IH]%orb_true_iff.
    + by exists "", q.
    + by exists (String a p), q.
Qed.

Lemma concat_empty_cons (x : string) (l : list string) :
  String.concat "" (x :: l) = x +:+ String.concat "" l.
Proof. destruct l; simpl; [by rewrite string_app_nil_r|done]. Qed.

Lemma concat_empty_elem (l : list string) (x : string) :
  x ∈ l → ∃ pre post, String.concat "" l = pre +:+ x +:+ post.
Proof.
  induction l as [|y l IH]; [by intros ?%elem_of_nil|].
  rewrite concat_empty_cons. intros [->|(pre & post & ->)%IH]%elem_of_cons.
  - by exists "", (String.concat "" l).
  - exists (y +:+ pre), post. by rewrite string_app_assoc.
Qed.

Lemma readlines_nil (s : string) : Extractor.readlines s = [] → s = "".
Proof.
  destruct s as [|a s]; [done|]. simpl. case_bool_decide; [done|].
  by destruct (Extractor.readlines s).
Qed.

(** Writing the lines that were read gives the text back. *)
Lemma writelines_readlines (s : string) :
  Extractor.writelines (Extractor.readlines s) = s.
Proof.
  unfold Extractor.writelines. induction s as [|a s IH]; [done|].
  cbn [Extractor.readlines]. case_bool_decide.
  - by rewrite concat_empty_cons, IH.
  - destruct (Extractor.readlines s) as [|line lines] eqn:E.
    + apply readlines_nil in E as ->. done.
    + rewrite concat_empty_cons in *. by rewrite string_app_cons, IH.
Qed.

Lemma readlines_substring (s line : string) :
  line ∈ Extractor.readlines s → ∃ pre post, s = pre +:+ line +:+ post.
Proof.
  intros (pre & post & H)%concat_empty_elem. exists pre, post.
  rewrite <- H. symmetry. apply writelines_readlines.
Qed.

(** ** The loop of [remove_tables_data] *)

Lemma list_tables_lines_app (l1 l2 : list string) :
  Extractor.list_tables_lines (l1 ++ l2)
  = Extractor.list_tables_lines l1 ++ Extractor.list_tables_lines l2.
Proof.
  induction l1 as [|x l1 IH]; [done|]. simpl.
  destruct (Extractor.created_table x); simpl; by rewrite IH.
Qed.

Lemma remove_tables_data_lines_spec (table_names lines output_lines : list string)
    (tables_found : gset string) :
  Extractor.remove_tables_data_lines table_names lines output_lines tables_found
  = (output_lines
       ++ filter (fun line => Extractor.is_target_insert table_names line = false)
            lines,
     tables_found
       ∪ list_to_set
           (filter (fun table => table ∈ table_names)
              (Extractor.list_tables_lines
                 (filter (fun line =>
                            Extractor.is_target_insert table_names line = false)
                    lines)))).
Proof.
  revert output_lines tables_found.
  induction lines as [|line lines IH]; intros output_lines tables_found.
  - simpl. rewrite app_nil_r. f_equal. by rewrite (right_id_L ∅ (∪)).
  - cbn [Extractor.remove_tables_data_lines]. rewrite filter_cons.
    destruct (Extractor.is_target_insert table_names line) eqn:E.
    + rewrite decide_False by done. apply IH.
    + rewrite decide_True by done. rewrite IH, <- app_assoc. simpl. f_equal.
      destruct (Extractor.created_table line) as [table|]; [|done].
      rewrite filter_cons. case_bool_decide.
      * rewrite decide_True by done. simpl.
        by rewrite (comm_L (∪) {[table]} tables_found), <- (assoc_L (∪)).
      * by rewrite decide_False by done.
Qed.

Lemma is_target_insert_text (table_names : list string) (line : string) :
  Extractor.is_target_insert table_names line = true →
  ∃ pre table rest,
    table ∈ table_names
    ∧ line = pre +:+ "INSERT INTO `" +:+ table +:+ "`" +:+ rest.
Proof.
  unfold Extractor.is_target_insert, Extractor.inserted_table.
  destruct (Re.search false Extractor.insert_pattern line) as [m|] eqn:E;
    [|done].
  simpl. intros Hin%bool_decide_eq_true.
  apply search_sound in E as (pre & s0 & -> & H%match_sound).
  unfold Extractor.insert_pattern in H. break_matches H.
  match goal with
  | Hb : matches false backquoted _ _ _ _ |- _ =>
      apply backquoted_name in Hb as (name & Hc & _ & Hs)
  end.
  subst. unfold Re.group in Hin.
  match goal with Hg : Re.groups m = _ |- _ => rewrite Hg in Hin end.
  simpl in Hin. by exists pre, name, (Re.rest m).
Qed.

(** X12: What [remove_tables_data] keeps: the lines of the dump in their order,
    without those whose first INSERT INTO names a target table.  A line
    that is dropped holds INSERT INTO and a target table between
    backquotes; a line without INSERT INTO and a backquote is kept, so the
    CREATE TABLE statements stay. *)
Theorem remove_tables_data_keeps (table_names lines : list string) :
  let output_lines :=
    (Extractor.remove_tables_data_lines table_names lines [] ∅).1 in
  output_lines
    = filter (fun line => Extractor.is_target_insert table_names line = false)
        lines
  ∧ output_lines `sublist_of` lines
  ∧ (∀ line, line ∈ lines → line ∉ output_lines →
       ∃ pre table rest,
         table ∈ table_names
         ∧ line = pre +:+ "INSERT INTO `" +:+ table +:+ "`" +:+ rest)
  ∧ (∀ line, line ∈ lines → Str.contains "INSERT INTO `" line = false →
       line ∈ output_lines).
Proof.
  rewrite remove_tables_data_lines_spec. simpl.
  assert (∀ line, Str.contains "INSERT INTO `" line = false →
                  Extractor.is_target_insert table_names line = false) as Hno.
  { intros line Hc.
    destruct (Extractor.is_target_insert table_names line) eqn:E; [|done].
    apply is_target_insert_text in E as (pre & table & rest & _ & ->).
    by rewrite contains_app in Hc. }
  split; [done|]. split; [apply sublist_filter|]. split.
  - intros line Hin Hout. apply is_target_insert_text.
    destruct (Extractor.is_target_insert table_names line) eqn:E; [done|].
    destruct Hout. by apply list_elem_of_filter.
  - intros line Hin Hc. apply list_elem_of_filter. split; [by apply Hno|done].
Qed.

(** X13: The tables reported as found are the target tables created by a line
    that was kept; found and not found tables share out the targets. *)
Theorem tables_found_spec (table_names lines : list string) :
  let r := Extractor.remove_tables_data_lines table_names lines [] ∅ in
  r.2 = list_to_set table_names
          ∩ list_to_set (Extractor.list_tables_lines r.1)
  ∧ Extractor.tables_not_found table_names r.2 ∪ r.2 = list_to_set table_names
  ∧ Extractor.tables_not_found table_names r.2 ∩ r.2 = ∅.
Proof.
  rewrite remove_tables_data_lines_spec. simpl.
  rewrite (left_id_L ∅ (∪)).
  set (out := filter _ lines).
  assert (list_to_set (filter (fun table => table ∈ table_names)
                         (Extractor.list_tables_lines out))
          =@{gset string} list_to_set table_names
              ∩ list_to_set (Extractor.list_tables_lines out)) as Hfound.
  { apply set_eq. intros t.
    rewrite elem_of_intersection, !elem_of_list_to_set, list_elem_of_filter.
    done. }
  split; [done|]. rewrite Hfound. unfold Extractor.tables_not_found.
  split; apply set_eq; intros t;
    rewrite ?elem_of_union, ?elem_of_intersection, ?elem_of_difference,
      ?elem_of_intersection, ?elem_of_list_to_set.
  - destruct (decide (t ∈ Extractor.list_tables_lines out)); tauto.
  - split; [tauto|]. by intros ?%not_elem_of_empty.
Qed.

Lemma filter_filter_same {A} (P : A → Prop) `{∀ x, Decision (P x)}
    (l : list A) :
  filter P (filter P l) = filter P l.
Proof.
  induction l as [|x l IH]; [done|]. rewrite filter_cons.
  destruct (decide (P x)); [|done]. rewrite filter_cons.
  rewrite decide_True by done. by rewrite IH.
Qed.

(** X14: Running [remove_tables_data] on its own output changes nothing more:
    the same lines come out and the same tables are found. *)
Theorem remove_tables_data_idempotent (table_names lines : list string) :
  let r := Extractor.remove_tables_data_lines table_names lines [] ∅ in
  Extractor.remove_tables_data_lines table_names r.1 [] ∅ = r.
Proof.
  rewrite remove_tables_data_lines_spec. simpl.
  rewrite remove_tables_data_lines_spec. simpl.
  by rewrite filter_filter_same.
Qed.

(** X15: A dump without any INSERT INTO followed by a backquote goes through
    unchanged, whatever the target tables: the text written is the text
    read. *)
Theorem dump_without_insert_unchanged (table_names : list string)
    (content : string) :
  Str.contains "INSERT INTO `" content = false →
  Extractor.writelines
    (Extractor.remove_tables_data_lines table_names
       (Extractor.readlines content) [] ∅).1
  = content.
Proof.
  intros Hno. rewrite remove_tables_data_lines_spec. simpl.
  rewrite <- (writelines_readlines content) at 2. f_equal.
  assert (Forall (fun line =>
                    Extractor.is_target_insert table_names line = false)
            (Extractor.readlines content)) as Hall.
  { apply Forall_forall. intros line (pre & post & Hc)%readlines_substring.
    destruct (Extractor.is_target_insert table_names line) eqn:E; [|done].
    apply is_target_insert_text in E as (p & table & rest & _ & ->).
    rewrite Hc in Hno. rewrite <- not_true_iff_false in Hno. destruct Hno.
    apply contains_exact.
    exists (pre +:+ p), (table +:+ "`" +:+ rest +:+ post).
    by rewrite !string_app_assoc. }
  induction Hall as [|line ls Hk _ IH]; [done|].
  rewrite filter_cons, decide_True by done. by rewrite IH.
Qed.

Lemma dump_without_insert_unchanged_witness :
  Extractor.writelines
    (Extractor.remove_tables_data_lines ["orders"; "users"]
       (Extractor.readlines (orders_dump "fk_1")) [] ∅).1
  = orders_dump "fk_1".
Proof.
  apply dump_without_insert_unchanged. vm_compute. reflexivity.
Defined.

(** ** Lines that name a table *)

Lemma not_contains_all_chars (a : ascii) (w : string) :
  Str.contains (String a "") w = false →
  all_chars (Re.cmatch (Re.CNot a)) w = true.
Proof.
  induction w as [|b w IH]; [done|].
  change (Str.contains (String a "") (String b w))
    with ((if decide (a = b) then true else false)
          || Str.contains (String a "") w).
  intros [Hb Hw]%orb_false_iff.
  change (all_chars (Re.cmatch (Re.CNot a)) (String b w))
    with (negb (bool_decide (b = a)) && all_chars (Re.cmatch (Re.CNot a)) w).
  rewrite IH by done. destruct (decide (a = b)) as [|Hne]; [done|].
  rewrite bool_decide_false by (intros ->; done). done.
Qed.

Lemma star_greedy_stop {A} (f : ascii → bool) (w s' : string)
    (k : string → option A) (x : A) :
  all_chars f w = true → (∀ a t, s' = String a t → f a = false) →
  k s' = Some x → Re.star_greedy f (w +:+ s') k = Some x.
Proof.
  intros Hw Hs' Hk. induction w as [|b w IH].
  - rewrite string_app_nil_l. destruct s' as [|a t]; [done|]. simpl.
    by rewrite (Hs' a t eq_refl).
  - rewrite string_app_cons. simpl in *.
    apply andb_true_iff in Hw as [-> Hw]. by rewrite IH.
Qed.

Lemma backquoted_run {A} (name rest : string) (caps : list string)
    (k : string → list string → option A) (x : A) :
  well_formed_name name → k rest (caps ++ [name]) = Some x →
  Re.run false backquoted ("`" +:+ name +:+ "`" +:+ rest) caps k = Some x.
Proof.
  intros [Hne Hbq%not_contains_all_chars] Hk. unfold backquoted.
  cbn [Re.run]. rewrite (proj2 (lit_exact "`" _ _) eq_refl).
  destruct name as [|a name]; [done|]. rewrite string_app_cons.
  unfold Re.plus.
  change (all_chars ?f (String a name)) with (f a && all_chars f name) in Hbq.
  apply andb_true_iff in Hbq as [Ha Hbq].
  rewrite Ha. apply star_greedy_stop; [done| |].
  - by intros b t [= <- _].
  - rewrite (proj2 (lit_exact "`" _ _) eq_refl).
    rewrite <- string_app_cons, consumed_app. done.
Qed.

Lemma search_at_front (ic : bool) (r : Re.regex) (s : string) (m : Re.t) :
  Re.match_ ic r s = Some m → Re.search ic r s = Some m.
Proof. intros H. destruct s; simpl; by rewrite H. Qed.

Lemma created_table_front (name rest : string) :
  well_formed_name name →
  Extractor.created_table ("CREATE TABLE `" +:+ name +:+ "`" +:+ rest)
  = Some name.
Proof.
  intros Hwf. unfold Extractor.created_table.
  rewrite (search_at_front _ _ _ (Re.Match [name] rest)); [done|].
  unfold Re.match_, Extractor.create_table_pattern. cbn [Re.run].
  change ("CREATE TABLE `" +:+ name +:+ "`" +:+ rest)
    with ("CREATE TABLE " +:+ "`" +:+ name +:+ "`" +:+ rest).
  rewrite (proj2 (lit_exact "CREATE TABLE " _ _) eq_refl).
  by apply backquoted_run.
Qed.

Lemma inserted_table_front (name rest : string) :
  well_formed_name name →
  Extractor.inserted_table ("INSERT INTO `" +:+ name +:+ "`" +:+ rest)
  = Some name.
Proof.
  intros Hwf. unfold Extractor.inserted_table.
  rewrite (search_at_front _ _ _ (Re.Match [name] rest)); [done|].
  unfold Re.match_, Extractor.insert_pattern. cbn [Re.run].
  change ("INSERT INTO `" +:+ name +:+ "`" +:+ rest)
    with ("INSERT INTO " +:+ "`" +:+ name +:+ "`" +:+ rest).
  rewrite (proj2 (lit_exact "INSERT INTO " _ _) eq_refl).
  by apply backquoted_run.
Qed.

(** X16: A line that begins with INSERT INTO and a table name between
    backquotes is dropped exactly when the table is a target; the name is
    any non-empty text without backquote. *)
Theorem insert_line_dropped_iff (table_names : list string)
    (name rest : string) :
  name ≠ "" → Str.contains "`" name = false →
  Extractor.is_target_insert table_names
    ("INSERT INTO `" +:+ name +:+ "`" +:+ rest)
  = bool_decide (name ∈ table_names).
Proof.
  intros Hne Hbq. unfold Extractor.is_target_insert.
  by rewrite inserted_table_front.
Qed.

Lemma insert_line_dropped_iff_witness :
  Extractor.is_target_insert ["users"]
    ("INSERT INTO `" +:+ "users" +:+ "`" +:+ " VALUES (1,'a');")
  = bool_decide ("users" ∈ ["users"]).
Proof. apply insert_line_dropped_iff; [done|reflexivity]. Defined.

(** X17: [list_tables] gives the tables of the CREATE TABLE lines in the order
    of the lines, repeated names included, whatever follows the name on
    each line. *)
Theorem list_tables_in_order (entries : list (string * string)) :
  Forall (fun entry => entry.1 ≠ "" ∧ Str.contains "`" entry.1 = false)
    entries →
  Extractor.list_tables_lines
    ((fun entry => "CREATE TABLE `" +:+ entry.1 +:+ "`" +:+ entry.2)
       <$> entries)
  = entries.*1.
Proof.
  induction 1 as [|[name tail] entries Hwf _ IH]; [done|].
  cbn [fmap list_fmap Extractor.list_tables_lines fst snd].
  rewrite created_table_front by done. f_equal. apply IH.
Qed.

Lemma list_tables_in_order_witness :
  Extractor.list_tables_lines
    ((fun entry => "CREATE TABLE `" +:+ entry.1 +:+ "`" +:+ entry.2)
       <$> [("users", " ("); ("orders", " (  -- `x`");
            ("users", "(id int); CREATE TABLE `other` (")])
  = ["users"; "orders"; "users"].
Proof.
  apply (list_tables_in_order
           [("users", " ("); ("orders", " (  -- `x`");
            ("users", "(id int); CREATE TABLE `other` (")]).
  repeat constructor; done.
Defined.

(** ** The default output file *)

Lemma before_last_dot_Some (s h : string) :
  Extractor.before_last_dot s = Some h → ∃ ext, s = h +:+ "." +:+ ext.
Proof.
  revert h. induction s as [|a s IH]; intros h; simpl; [done|].
  destruct (Extractor.before_last_dot s) as [h'|].
  - intros [= <-]. destruct (IH h' eq_refl) as (ext & ->). by exists ext.
  - case_bool_decide as Ha; [|done]. intros [= <-]. subst a. by exists s.
Qed.

Lemma app_self_ne (s : string) (a : ascii) (t : string) :
  s +:+ String a t ≠ s.
Proof.
  intros H. apply (f_equal String.length) in H.
  rewrite string_length_app in H. simpl in H. lia.
Qed.

Lemma default_output_ne (dump_file : string) (tables : list string) :
  Extractor.default_output dump_file tables ≠ dump_file.
Proof.
  unfold Extractor.default_output, Extractor.rsplit_dot_head.
  destruct (Extractor.before_last_dot dump_file) as [h|] eqn:E; simpl.
  - apply before_last_dot_Some in E as (ext & ->).
    intros H%(inj (String.app h)). discriminate H.
  - apply app_self_ne.
Qed.

Lemma rev_app_acc (s acc1 acc2 : string) :
  String.rev_app s (acc1 +:+ acc2) = String.rev_app s acc1 +:+ acc2.
Proof.
  revert acc1. induction s as [|a s IH]; intros acc1; [done|]. simpl.
  by rewrite <- IH.
Qed.

Lemma rev_app_app (s1 s2 acc : string) :
  String.rev_app (s1 +:+ s2) acc = String.rev_app s2 (String.rev_app s1 acc).
Proof.
  revert acc. induction s1 as [|a s1 IH]; intros acc; [done|].
  rewrite string_app_cons. simpl. apply IH.
Qed.

Lemma endswith_app (p s : string) : Str.endswith p (s +:+ p) = true.
Proof.
  unfold Str.endswith, String.rev. rewrite rev_app_app.
  rewrite <- (string_app_nil_l (String.rev_app s "")), rev_app_acc.
  apply startswith_app.
Qed.

(** X18: [main] in the mode that removes data, reading a file: the result
    always goes to a file, never to the standard output, and unless the
    file was named with [-o] it is a file other than the dump itself, whose
    name ends in _no_data.sql. *)
Theorem main_output_file (a : Extractor.args) (path : string)
    (table_names : list string) (output_stream : option string)
    (is_file_output : bool) :
  Extractor.main a
    = Extractor.RemoveTablesData (Extractor.InputFile path) table_names
        output_stream is_file_output →
  ∃ out, Extractor.destination output_stream is_file_output = Some out
         ∧ (Extractor.output a = Some out
            ∨ (out ≠ path ∧ Str.endswith "_no_data.sql" out = true)).
Proof.
  unfold Extractor.main.
  destruct (Extractor.dump_file a) as [f|] eqn:Ef; simpl;
    [|by repeat case_match].
  destruct (bool_decide (f = "") || bool_decide (f = "-")) eqn:Estdin; simpl;
    [by repeat case_match|].
  destruct (Extractor.list_ a); simpl; [by rewrite !andb_false_r|].
  rewrite !andb_true_r.
  destruct (Extractor.truthy_list (Extractor.tables a)) eqn:Et; simpl;
    [|by rewrite !andb_false_r].
  rewrite !andb_true_r.
  destruct (Extractor.truthy (Extractor.output a)) eqn:Eo; simpl.
  - intros [= <- <- <- <-]. unfold Extractor.destination. rewrite Eo. simpl.
    destruct (Extractor.output a) as [out|]; [|done]. eauto.
  - intros [= <- <- <- <-].
    exists (Extractor.default_output f (default [] (Extractor.tables a))).
    split.
    + unfold Extractor.destination, Extractor.truthy. simpl.
      rewrite bool_decide_true; [done|].
      unfold Extractor.default_output. apply app_not_empty.
    + right. split; [apply default_output_ne|].
      unfold Extractor.default_output, Str.endswith.
      rewrite <- !string_app_assoc. apply endswith_app.
Qed.

Lemma main_output_file_witness :
  ∃ out,
    Extractor.destination (Some "dump_users_no_data.sql") true = Some out
    ∧ (None = Some out
       ∨ (out ≠ "dump.sql" ∧ Str.endswith "_no_data.sql" out = true)).
Proof.
  apply (main_output_file
           (Extractor.Args (Some "dump.sql") (Some ["users"]) false None)
           "dump.sql" ["users"]).
  vm_compute. reflexivity.
Defined.

(** * Constraints are correlated by identity key *)

(** ** Loops over a list cut in two *)

Lemma for_each_app {A B} (f : A → result B) (l1 l2 : list A) :
  for_each f (l1 ++ l2)
  = ys1 ← for_each f l1; ys2 ← for_each f l2; Ok (ys1 ++ ys2).
Proof.
  induction l1 as [|x l1 IH]; simpl.
  - by destruct (for_each f l2).
  - destruct (f x) as [y|e]; simpl; [|done]. rewrite IH.
    destruct (for_each f l1) as [ys1|e]; simpl; [|done].
    by destruct (for_each f l2).
Qed.

Lemma for_each_ext {A B} (f g : A → result B) (l : list A) :
  (∀ x, x ∈ l → f x = g x) → for_each f l = for_each g l.
Proof.
  induction l as [|x l IH]; intros Hfg; simpl; [done|].
  rewrite Hfg by left. rewrite IH; [done|]. intros y Hy. apply Hfg. by right.
Qed.

(** Taking an element out of a set takes it out of the sorted list, and
    leaves the rest in place. *)
Lemma sorted_delete (X : gset string) (T : string) :
  T ∈ X →
  ∃ l1 l2, sorted X = l1 ++ T :: l2 ∧ sorted (X ∖ {[ T ]}) = l1 ++ l2
           ∧ (T ∉ l1) ∧ (T ∉ l2).
Proof.
  intros HT. destruct (sorted_increasing X) as [Hs Hnd].
  assert (T ∈ sorted X) as (l1 & l2 & E)%list_elem_of_split
    by by apply elem_of_sorted.
  exists l1, l2.
  assert (∀ x, x ∈ X ↔ x ∈ l1 ++ T :: l2) as Hin.
  { intros x. by rewrite <- E, elem_of_sorted. }
  rewrite E in Hs, Hnd.
  apply NoDup_app in Hnd as (Hnd1 & Hd & Hnd2).
  apply NoDup_cons in Hnd2 as [HT2 Hnd2].
  assert (T ∉ l1) as HT1.
  { intros H. apply (Hd T H). by left. }
  split; [done|]. split; [|done].
  destruct (sorted_increasing (X ∖ {[ T ]})) as [Hs' Hnd'].
  apply StronglySorted_app in Hs as (Hle & Hs1 & Hs2).
  apply StronglySorted_cons in Hs2 as [_ Hs2].
  apply (StronglySorted_unique String.le); [done| |].
  - apply StronglySorted_app_2; [|done|done].
    intros x1 x2 H1 H2. apply Hle; [done|by right].
  - apply NoDup_Permutation; [done| |].
    + apply NoDup_app. split; [done|]. split; [|done].
      intros x H1 H2. apply (Hd x H1). by right.
    + intros x. rewrite elem_of_sorted, elem_of_difference, Hin.
      rewrite !elem_of_app, elem_of_cons, elem_of_singleton. split.
      * intros [[?|[?|?]] ?]; tauto.
      * intros [H|H]; (split; [tauto|]); by intros ->.
Qed.

(** ** The constraint sections of a table *)

Lemma constraint_line_text (sign : string) (c : Constraint.t) (line : string) :
  constraint_line sign c = Ok line →
  line = constraint_text sign c
  ∧ (Constraint.constraint_type c = "FOREIGN KEY"
     → is_Some (Constraint.referenced_columns c)).
Proof.
  unfold constraint_line, constraint_text, fmt. case_bool_decide as Hfk.
  - destruct (Constraint.referenced_columns c) as [rc|]; [|done].
    intros [= <-]. split; [done|eauto].
  - intros [= <-]. split; [by rewrite string_app_nil_r|done].
Qed.

Lemma sorted_keys_empty : sorted_keys ∅ = [].
Proof. unfold sorted_keys. by rewrite elements_empty. Qed.

Lemma sorted_keys_nil (keys : gset (string * list string)) :
  sorted_keys keys = [] → keys = ∅.
Proof.
  intros E. apply elem_of_equiv_empty_L. intros k Hk.
  apply elem_of_sorted_keys in Hk. rewrite E in Hk. by apply elem_of_nil in Hk.
Qed.

Lemma for_each_constraint_lines (sign : string)
    (d : gmap (string * list string) Constraint.t)
    (ks : list (string * list string)) (ls : list string) :
  for_each (fun key => c ← py_getitem d key; constraint_line sign c) ks
  = Ok ls →
  ∃ cs, Forall2 (fun k c => d !! k = Some c) ks cs
        ∧ Forall (fun c => Constraint.constraint_type c = "FOREIGN KEY"
                           → is_Some (Constraint.referenced_columns c)) cs
        ∧ ls = constraint_text sign <$> cs.
Proof.
  revert ls. induction ks as [|k ks IH]; intros ls; simpl.
  - intros [= <-]. exists []. by repeat constructor.
  - intros (l & Hl & (ls' & Hls' & [= <-])%bind_Ok)%bind_Ok.
    apply bind_Ok in Hl as (c & Hc & Hl).
    unfold py_getitem in Hc. destruct (d !! k) as [c'|] eqn:E; [|done].
    injection Hc as ->. apply constraint_line_text in Hl as [-> Hfk].
    destruct (IH ls' Hls') as (cs & HF & Hok & ->).
    exists (c :: cs). split; [by constructor|]. split; [by constructor|done].
Qed.

Lemma constraint_block_section (heading sign : string)
    (d : gmap (string * list string) Constraint.t)
    (keys : gset (string * list string)) (ls : list string) :
  constraint_block heading sign d keys = Ok ls →
  ∃ cs, Forall2 (fun k c => d !! k = Some c) (sorted_keys keys) cs
        ∧ Forall (fun c => Constraint.constraint_type c = "FOREIGN KEY"
                           → is_Some (Constraint.referenced_columns c)) cs
        ∧ ls = constraint_section heading sign cs.
Proof.
  unfold constraint_block. destruct (decide (keys = ∅)) as [->|Hk].
  - rewrite bool_decide_false by (by intros []). intros [= <-].
    exists []. rewrite sorted_keys_empty. by repeat constructor.
  - rewrite bool_decide_true by done.
    intros (ls' & (cs & HF & Hok & ->)%for_each_constraint_lines
            & [= <-])%bind_Ok.
    exists cs. split; [done|]. split; [done|]. unfold constraint_section.
    rewrite bool_decide_true; [done|]. intros ->.
    apply Forall2_nil_inv_r in HF. by apply sorted_keys_nil in HF.
Qed.

(** The constraints filed under the keys of the first sequence that the
    second has not: one per key, each taken from the first sequence. *)
Lemma filed_constraints (l1 l2 cs : list Constraint.t) :
  Forall2 (fun k c => constraints_by_key l1 !! k = Some c)
    (sorted_keys (dom (constraints_by_key l1) ∖ dom (constraints_by_key l2)))
    cs →
  NoDup (constraint_key <$> cs)
  ∧ (∀ c, c ∈ cs →
       c ∈ l1 ∧ ¬ ∃ c', c' ∈ l2 ∧ constraint_key c' = constraint_key c)
  ∧ (∀ k, (∃ c, c ∈ l1 ∧ constraint_key c = k) →
          ¬ (∃ c, c ∈ l2 ∧ constraint_key c = k) →
          k ∈ constraint_key <$> cs).
Proof.
  intros HF.
  assert (constraint_key <$> cs
          = sorted_keys (dom (constraints_by_key l1)
                           ∖ dom (constraints_by_key l2))
          ∧ Forall (fun c => c ∈ l1) cs) as [Hkeys Hin].
  { induction HF as [|k c ks cs' Hc _ [IH1 IH2]]; [done|].
    apply constraints_by_key_lookup in Hc as [? ?].
    split; [simpl; by f_equal|by constructor]. }
  assert (∀ k, k ∈ constraint_key <$> cs ↔
               (∃ c, c ∈ l1 ∧ constraint_key c = k)
               ∧ ¬ (∃ c, c ∈ l2 ∧ constraint_key c = k)) as Hiff.
  { intros k. rewrite Hkeys, elem_of_sorted_keys, elem_of_difference.
    by rewrite !constraints_by_key_dom. }
  split; [rewrite Hkeys; apply sorted_keys_increasing|]. split.
  - intros c Hc. split; [rewrite Forall_forall in Hin; by apply Hin|].
    apply (Hiff (constraint_key c)). by apply list_elem_of_fmap_2.
  - intros k H1 H2. by apply Hiff.
Qed.

Lemma compare_table_split (table1 table2 : Table.t) (table_diff : list string) :
  compare_table table1 table2 = Ok table_diff →
  ∃ other section,
    compare_table (without_constraints table1) (without_constraints table2)
    = Ok other
    ∧ compare_constraints table1 table2 = Ok section
    ∧ table_diff = other ++ section.
Proof.
  unfold compare_table.
  intros (columns_diff & Hcols
          & (constraints_diff & Hcons & [= <-])%bind_Ok)%bind_Ok.
  change (compare_columns (without_constraints table1)
            (without_constraints table2))
    with (compare_columns table1 table2).
  rewrite Hcols.
  assert (compare_constraints (without_constraints table1)
            (without_constraints table2) = Ok []) as ->.
  { unfold compare_constraints, removed_constraints_block,
      added_constraints_block, missing_constraints, extra_constraints.
    simpl. rewrite difference_diag_L. by rewrite !constraint_block_empty. }
  simpl. eexists _, constraints_diff. split; [done|]. split; [done|].
  by rewrite app_nil_r, <- !(assoc_L (++)).
Qed.

(** ** The block of one table in the report *)

Lemma report_lines_split (A B : gmap string Table.t) (T : string)
    (ls : list string) :
  T ∈ dom A → T ∈ dom B →
  report_lines A B = Ok ls →
  ∃ before block after,
    common_table_block A B T = Ok block
    ∧ report_lines (delete T A) (delete T B) = Ok (before ++ after)
    ∧ ls = before ++ block ++ after.
Proof.
  intros HA HB. unfold report_lines.
  intros (blocks & Hblocks & [= <-])%bind_Ok.
  destruct (sorted_delete (dom A ∩ dom B) T) as (l1 & l2 & E & E' & H1 & H2).
  { by apply elem_of_intersection. }
  rewrite E, for_each_app in Hblocks.
  apply bind_Ok in Hblocks as (bs1 & Hbs1 & Hblocks).
  apply bind_Ok in Hblocks as (bs2' & Hbs2 & [= <-]).
  simpl in Hbs2. apply bind_Ok in Hbs2 as (block & Hblock & Hbs2).
  apply bind_Ok in Hbs2 as (bs2 & Hbs2 & [= <-]).
  exists (missing_tables_block A B ++ extra_tables_block A B ++ concat bs1),
    block, (concat bs2).
  split; [done|]. split.
  - assert (∀ X Y : gset string, T ∈ X → T ∈ Y →
              (X ∖ {[ T ]}) ∖ (Y ∖ {[ T ]}) = X ∖ Y) as Hdiff.
    { intros X Y HX HY. apply set_eq. intros x.
      rewrite !elem_of_difference, elem_of_singleton. split.
      - intros [[? ?] Hn]. split; [done|]. intros ?. by apply Hn.
      - intros [? Hn]. split; [|by intros [? _]]. split; [done|].
        intros ->. by apply Hn. }
    assert ((dom A ∖ {[ T ]}) ∩ (dom B ∖ {[ T ]}) = (dom A ∩ dom B) ∖ {[ T ]})
      as Hcommon.
    { apply set_eq. intros x.
      rewrite !elem_of_intersection, !elem_of_difference, elem_of_intersection.
      tauto. }
    unfold missing_tables_block, extra_tables_block, missing_tables,
      extra_tables.
    rewrite !dom_delete_L, !Hdiff, Hcommon, E', for_each_app by done.
    assert (∀ l, T ∉ l →
              for_each (common_table_block (delete T A) (delete T B)) l
              = for_each (common_table_block A B) l) as Hext.
    { intros l Hl. apply for_each_ext. intros x Hx.
      unfold common_table_block, py_getitem.
      rewrite !lookup_delete_ne; [done| |]; by intros <-. }
    rewrite !Hext, Hbs1, Hbs2 by done. simpl.
    by rewrite concat_app, <- !(assoc_L (++)).
  - rewrite concat_app. simpl. by rewrite <- !(assoc_L (++)).
Qed.

(** C1: for a table T of both schemas the differ matches the constraints
    on the key (constraint_type, columns), not on the name.  Whenever
    [compare] returns, the text it returns is the report on the other tables
    with, for T, the lines of its charset, collation and columns (those of
    T without its constraints) followed by the section of the removed and
    that of the added constraints.  The removed constraints are
    constraints of the first table, one for each key that no constraint of
    the second table has; the added ones are constraints of the second
    table, one for each key that no constraint of the first table has.  So
    a constraint whose key is found on both sides has no line, whatever its
    two names, and one whose key is found on one side only has its line,
    under the heading of the removed or of the added constraints; the line
    shows the kind, the name, the columns and, for a foreign key, the
    referenced table and columns.  [compare] does return on schemas in
    which the foreign keys, and they alone, have their references, as in
    every parsed schema.  For the foreign key on (user_id) referencing
    users(id), named fk_1 in one dump and fk_2 in the other, the report is
    the "no difference" sentence. *)
Theorem constraints_correlated_by_key (file1 file2 : string)
    (A B : gmap string Table.t) (T : string) (table1 table2 : Table.t) :
  A !! T = Some table1 → B !! T = Some table2 →
  let self :=
    SQLDiff.mk (MySQLDumpParser.mk file1 A) (MySQLDumpParser.mk file2 B) in
  let key (c : Constraint.t) : string * list string :=
    (Constraint.constraint_type c, Constraint.columns c) in
  let has_key (table : Table.t) (k : string * list string) : Prop :=
    ∃ c, c ∈ Table.constraints table ∧ key c = k in
  let line (sign : string) (c : Constraint.t) : string :=
    ("    " +:+ sign +:+ " " +:+ Constraint.constraint_type c +:+ " "
       +:+ Constraint.name c
       +:+ " (" +:+ Str.join ", " (Constraint.columns c) +:+ ")")
    +:+ (if bool_decide (Constraint.constraint_type c = "FOREIGN KEY")
         then " REFERENCES "
                +:+ default "None" (Constraint.referenced_table c) +:+ " ("
                +:+ Str.join ", "
                      (default [] (Constraint.referenced_columns c))
                +:+ ")"
         else "") in
  let section (heading sign : string) (cs : list Constraint.t)
    : list string :=
    if bool_decide (cs ≠ []) then heading :: (line sign <$> cs) else [] in
  (map_Forall
     (fun _ t => Forall references_iff_foreign_key (Table.constraints t)) A →
   map_Forall
     (fun _ t => Forall references_iff_foreign_key (Table.constraints t)) B →
   ∃ report, SQLDiff.compare self = Ok report)
  ∧ (∀ report, SQLDiff.compare self = Ok report →
       ∃ (removed added : list Constraint.t)
         (before other after : list string),
         let table_diff :=
           other ++ section "  Contraintes supprimées:" "-" removed
             ++ section "  Contraintes ajoutées:" "+" added in
         let ls :=
           before
             ++ (if bool_decide (table_diff ≠ [])
                 then ("Différences pour la table `" +:+ T +:+ "`:")
                        :: table_diff ++ [""]
                 else [])
             ++ after in
         report = (if bool_decide (ls ≠ []) then Str.join Str.nl ls
                   else NO_DIFFERENCE)
         ∧ report_lines (delete T A) (delete T B) = Ok (before ++ after)
         ∧ compare_table (without_constraints table1)
             (without_constraints table2) = Ok other
         ∧ NoDup (key <$> removed)
         ∧ (∀ c, c ∈ removed →
              c ∈ Table.constraints table1 ∧ ¬ has_key table2 (key c))
         ∧ (∀ k, has_key table1 k → ¬ has_key table2 k →
              k ∈ key <$> removed)
         ∧ NoDup (key <$> added)
         ∧ (∀ c, c ∈ added →
              c ∈ Table.constraints table2 ∧ ¬ has_key table1 (key c))
         ∧ (∀ k, has_key table2 k → ¬ has_key table1 k → k ∈ key <$> added)
         ∧ (∀ c, c ∈ removed ++ added →
              Constraint.constraint_type c = "FOREIGN KEY" →
              is_Some (Constraint.referenced_columns c)))
  ∧ (d ← SQLDiff.init {[ "a.sql" := File (orders_dump "fk_1");
                          "b.sql" := File (orders_dump "fk_2") ]}
           "a.sql" "b.sql";
     SQLDiff.compare d) = Ok NO_DIFFERENCE.
Proof.
  intros HA HB self key has_key line section.
  change (SQLDiff.compare self) with (SQLDiff.compare_tables A B).
  split; [|split; [|vm_compute; reflexivity]].
  { intros HinvA HinvB. unfold SQLDiff.compare_tables.
    destruct (report_lines_total A B HinvA HinvB) as (ls & ->). simpl. eauto. }
  intros report Hreport. unfold SQLDiff.compare_tables in Hreport.
  apply bind_Ok in Hreport as (ls & Hls & [= <-]).
  apply (report_lines_split A B T) in Hls
    as (before & block & after & Hblock & Hrest & ->);
    [|apply elem_of_dom; eauto..].
  unfold common_table_block, py_getitem in Hblock.
  rewrite HA, HB in Hblock. simpl in Hblock.
  apply bind_Ok in Hblock as (table_diff & Htd & [= <-]).
  apply compare_table_split in Htd as (other & sec & Hother & Hsec & ->).
  unfold compare_constraints in Hsec.
  apply bind_Ok in Hsec as (rm & Hrm & Hsec).
  apply bind_Ok in Hsec as (ad & Had & [= <-]).
  apply constraint_block_section in Hrm as (removed & HFr & Hokr & ->).
  apply constraint_block_section in Had as (added & HFa & Hoka & ->).
  apply filed_constraints in HFr as (Hr1 & Hr2 & Hr3).
  apply filed_constraints in HFa as (Ha1 & Ha2 & Ha3).
  exists removed, added, before, other, after. cbv zeta.
  split; [done|]. split; [done|]. split; [done|].
  split; [exact Hr1|]. split; [exact Hr2|]. split; [exact Hr3|].
  split; [exact Ha1|]. split; [exact Ha2|]. split; [exact Ha3|].
  intros c [Hc|Hc]%elem_of_app.
  - rewrite Forall_forall in Hokr. by apply Hokr.
  - rewrite Forall_forall in Hoka. by apply Hoka.
Qed.

(** The two versions of [orders]: the index on (a) is removed, the unique
    key on (b) is added, and the foreign key, renamed, is neither. *)
Lemma constraints_correlated_by_key_witness :
  SQLDiff.compare
    (SQLDiff.mk (MySQLDumpParser.mk "a.sql" {[ "orders" := orders_before ]})
       (MySQLDumpParser.mk "b.sql" {[ "orders" := orders_after ]}))
  = Ok orders_report
  ∧ ∃ removed added : list Constraint.t,
      ("INDEX", ["a"]) ∈ constraint_key <$> removed
      ∧ (("FOREIGN KEY", ["user_id"]) ∉ constraint_key <$> removed)
      ∧ ("UNIQUE", ["b"]) ∈ constraint_key <$> added
      ∧ (("FOREIGN KEY", ["user_id"]) ∉ constraint_key <$> added).
Proof.
  pose proof (constraints_correlated_by_key "a.sql" "b.sql"
                {[ "orders" := orders_before ]} {[ "orders" := orders_after ]}
                "orders" orders_before orders_after eq_refl eq_refl)
    as (_ & H & _).
  assert (SQLDiff.compare
            (SQLDiff.mk
               (MySQLDumpParser.mk "a.sql" {[ "orders" := orders_before ]})
               (MySQLDumpParser.mk "b.sql" {[ "orders" := orders_after ]}))
          = Ok orders_report) as Hreport
    by (vm_compute; reflexivity).
  destruct (H orders_report Hreport)
    as (removed & added & before & other & after
        & _ & _ & _ & _ & Hr2 & Hr3 & _ & Ha2 & Ha3 & _).
  split; [exact Hreport|]. exists removed, added.
  assert (∀ (c : Constraint.t) (l : list Constraint.t) (P : Prop),
            c ∈ l → Forall (fun c' => c = c' → P) l → P) as Hcases.
  { intros c l P Hc Hl. rewrite Forall_forall in Hl. by apply (Hl c). }
  split; [|split; [|split]].
  - apply Hr3.
    + exists (Constraint.mk "idx_a" "INDEX" ["a"] None None).
      split; [by right; left|done].
    + intros (c & Hc & Hk). apply (Hcases c _ False Hc).
      repeat constructor; by intros ->.
  - intros (c & Hk & Hc)%list_elem_of_fmap. apply Hr2 in Hc as [_ Hn].
    apply Hn. exists (fk_users "fk_2"). split; [by left|done].
  - apply Ha3.
    + exists (Constraint.mk "u_b" "UNIQUE" ["b"] None None).
      split; [by right; left|done].
    + intros (c & Hc & Hk). apply (Hcases c _ False Hc).
      repeat constructor; by intros ->.
  - intros (c & Hk & Hc)%list_elem_of_fmap. apply Ha2 in Hc as [_ Hn].
    apply Hn. exists (fk_users "fk_1"). split; [by left|done].
Defined.
